(** * MirroringController: path absolutization and asset rewriting

    A shallow embedding of [src/app/http/controllers/MirroringController.ts]
    (webglue-api).  JavaScript strings are sequences of UTF-16 code units and
    are modelled as lists of code units; the regular expressions of the
    controller are written in a small regex syntax and run by a backtracking
    matcher that returns its results in JavaScript's priority order. *)

From stdpp Require Import gmap.
From Stdlib Require Import Ascii String.
From Stdlib Require Import List NArith ZArith Lia Bool.
Import ListNotations.

Local Open Scope list_scope.
Local Open Scope nat_scope.

(** ** JavaScript strings *)

(** A string is its sequence of UTF-16 code units. *)
Abbreviation str := (list N).

(** The code unit of an ASCII character, and the string of a literal. *)
Definition ch (a : ascii) : N := N_of_ascii a.
Definition js (s : string) : str := map ch (list_ascii_of_string s).

(** [String.prototype.split] with a separator of one code unit.
    [''.split(sep)] is [['']]. *)
Fixpoint split (sep : N) (s : str) : list str :=
  match s with
  | [] => [[]]
  | c :: s' =>
      if N.eqb c sep then [] :: split sep s'
      else match split sep s' with
           | seg :: segs => (c :: seg) :: segs
           | [] => [[c]]
           end
  end.

(** [Array.prototype.join]. *)
Fixpoint join (sep : str) (l : list str) : str :=
  match l with
  | [] => []
  | [x] => x
  | x :: l' => x ++ sep ++ join sep l'
  end.

(** Relative index of [Array.prototype.slice]: a negative index counts from
    the end, and both are clamped to [0, len]. *)
Definition relIndex (i len : Z) : Z :=
  if (i <? 0)%Z then Z.max (len + i) 0 else Z.min i len.

(** [Array.prototype.slice(start, end)]. *)
Definition slice {A : Type} (start fin : Z) (l : list A) : list A :=
  let len := Z.of_nat (length l) in
  let k := relIndex start len in
  let f := relIndex fin len in
  firstn (Z.to_nat (f - k)) (skipn (Z.to_nat k) l).

(** [Array.prototype.slice(start)]. *)
Definition sliceFrom {A : Type} (start : Z) (l : list A) : list A :=
  skipn (Z.to_nat (relIndex start (Z.of_nat (length l)))) l.

(** [String.prototype.startsWith]. *)
Fixpoint startsWith (s w : str) {struct w} : bool :=
  match w, s with
  | [], _ => true
  | c :: w', d :: s' => N.eqb c d && startsWith s' w'
  | _ :: _, [] => false
  end.

(** ECMAScript WhiteSpace and LineTerminator code units, the ones
    [trimLeft] removes. *)
Definition isWhiteSpace (c : N) : bool :=
  existsb (N.eqb c)
    [0x9; 0xA; 0xB; 0xC; 0xD; 0x20; 0xA0; 0x1680; 0x2028; 0x2029; 0x202F;
     0x205F; 0x3000; 0xFEFF]%N
  || ((0x2000 <=? c)%N && (c <=? 0x200A)%N).

(** [String.prototype.trimLeft]. *)
Fixpoint trimLeft (s : str) : str :=
  match s with
  | c :: s' => if isWhiteSpace c then trimLeft s' else s
  | [] => []
  end.

(** ** Regular expressions *)

(** The fragment of the regex syntax the controller uses.  [Star g r] is
    [r*] when [g] is [true] and the lazy [r*?] otherwise; [Group] is the one
    capture group a pattern may read back; [Eos] is [$], the end of the input
    (the patterns that use it carry no [m] flag); [NotAhead r] is [(?!r)]. *)
Inductive regex : Type :=
| Eps : regex
| Class : (N -> bool) -> regex
| Cat : regex -> regex -> regex
| Alt : regex -> regex -> regex
| Star : bool -> regex -> regex
| Group : regex -> regex
| Eos : regex
| NotAhead : regex -> regex.

Definition Chr (a : ascii) : regex := Class (N.eqb (ch a)).
Definition Opt (r : regex) : regex := Alt r Eps.
Definition Plus (r : regex) : regex := Cat r (Star true r).
Definition PlusLazy (r : regex) : regex := Cat r (Star false r).
Definition Lit (s : string) : regex :=
  fold_right (fun c r => Cat (Class (N.eqb c)) r) Eps (js s).

(** A result of running a pattern at some position: the input that is left,
    and the text of the capture group when it took part. *)
Abbreviation result := (str * option str)%type.

Definition orElse (c d : option str) : option str :=
  match c with Some _ => c | None => d end.

Section Iterate.
Variable step : str -> list result.
Variable greedy : bool.

(** The iterations of a starred pattern from [s].  An iteration that
    consumes nothing is rejected, as the ECMAScript matcher does, so [n]
    iterations are enough for an input of [n] code units. *)
Fixpoint iterate (n : nat) (s : str) : list result :=
  match n with
  | O => [(s, None)]
  | S n' =>
      let more :=
        flat_map (fun p : result =>
                    if length (fst p) <? length s then iterate n' (fst p)
                    else []) (step s) in
      if greedy then more ++ [(s, None)] else (s, None) :: more
  end.
End Iterate.

(** [run r s]: every way for [r] to match a prefix of [s], in backtracking
    order (the first result is the one JavaScript reports). *)
Fixpoint run (r : regex) (s : str) : list result :=
  match r with
  | Eps => [(s, None)]
  | Class p =>
      match s with
      | c :: s' => if p c then [(s', None)] else []
      | [] => []
      end
  | Cat a b =>
      flat_map (fun p : result =>
                  map (fun q : result => (fst q, orElse (snd q) (snd p)))
                      (run b (fst p))) (run a s)
  | Alt a b => run a s ++ run b s
  | Star g a => iterate (run a) g (length s) s
  | Group a =>
      map (fun p : result =>
             (fst p, Some (firstn (length s - length (fst p)) s))) (run a s)
  | Eos => match s with [] => [([], None)] | _ :: _ => [] end
  | NotAhead a => match run a s with [] => [(s, None)] | _ :: _ => [] end
  end.

(** [RegExp.prototype.test] for a pattern that starts with [^]: the pattern
    is tried at index 0 only. *)
Definition test (r : regex) (s : str) : bool :=
  match run r s with [] => false | _ :: _ => true end.

(** ** The controller *)

(** The fields of [this.url] the controller reads. *)
Record URL : Type := mkURL { host : str; pathname : str }.

Definition inRange (lo hi : ascii) (c : N) : bool :=
  ((ch lo <=? c)%N && (c <=? ch hi)%N).

Definition oneOf (s : string) (c : N) : bool := existsb (N.eqb c) (js s).

(** The character class [[A-z0-9\-%._~()'!*:@,;+&=?#]]. *)
Definition pathChar (c : N) : bool :=
  inRange "A" "z" c || inRange "0" "9" c || oneOf "-%._~()'!*:@,;+&=?#" c.

(** [([A-z0-9...]+\/)*[A-z0-9...]*], the body shared by the three patterns. *)
Definition segments : regex :=
  Cat (Star true (Cat (Plus (Class pathChar)) (Chr "/")))
      (Star true (Class pathChar)).

(** [/^\/(([...]+\/)*[...]*$)?$/] *)
Definition rootPathRegex : regex :=
  Cat (Chr "/") (Cat (Opt (Cat segments Eos)) Eos).

(** [/^(?!data:)(?!javascript:)(([...]+\/)*[...]*$)?$/] *)
Definition currentPathRegex : regex :=
  Cat (NotAhead (Lit "data:"))
      (Cat (NotAhead (Lit "javascript:"))
           (Cat (Opt (Cat segments Eos)) Eos)).

(** [/^\.\.\/(([...]+\/)*[...]*$)?$/] *)
Definition parentPathRegex : regex :=
  Cat (Chr ".") (Cat (Chr ".") (Cat (Chr "/")
      (Cat (Opt (Cat segments Eos)) Eos))).

(** [getAbsolutePath], with [this.url] passed explicitly. *)
Definition getAbsolutePath (url : URL) (path : str) : str :=
  if test rootPathRegex path then
    js "https://" ++ host url ++ path
  else if test currentPathRegex path then
    let currentPaths := slice 0 (-1) (split (ch "/") (pathname url)) in
    let assetPaths := split (ch "/") path in
    js "https://" ++ host url ++ join (js "/") (currentPaths ++ assetPaths)
  else if test parentPathRegex path then
    let parentPaths := slice 0 (-2) (split (ch "/") (pathname url)) in
    let assetPaths := sliceFrom 1 (split (ch "/") path) in
    js "https://" ++ host url ++ join (js "/") (parentPaths ++ assetPaths)
  else path.

(** The single quote and the double quote. *)
Definition squote : N := 39.
Definition dquote : N := 34.

(** The class of the two quotes. *)
Definition quoteChar (c : N) : bool := N.eqb c squote || N.eqb c dquote.

(** The negated class of the capture group: anything but a quote or a
    parenthesis. *)
Definition urlChar (c : N) : bool :=
  negb (quoteChar c || N.eqb c (ch "(") || N.eqb c (ch ")")).

(** [/url\(Q?([^Q()]+?)Q?\)/gm], where [Q] stands for the class of the
    two quotes. *)
Definition stylePathRegex : regex :=
  Cat (Lit "url(")
      (Cat (Opt (Class quoteChar))
           (Cat (Group (PlusLazy (Class urlChar)))
                (Cat (Opt (Class quoteChar)) (Chr ")")))).

(** A successful match: the text around it, the matched text and the
    capture group. *)
Record matched : Type := mkMatched
  { before : str; whole : str; group1 : option str; after : str }.

(** [RegExp.prototype.exec] from [lastIndex] 0: the first result at the
    leftmost index where the pattern matches, [None] for [null]. *)
Fixpoint exec (r : regex) (s : str) : option matched :=
  match run r s with
  | (rest, cap) :: _ =>
      Some (mkMatched [] (firstn (length s - length rest) s) cap rest)
  | [] =>
      match s with
      | [] => None
      | c :: s' =>
          option_map (fun m => mkMatched (c :: before m) (whole m) (group1 m) (after m))
                     (exec r s')
      end
  end.

(** [String.prototype.replace] with a global pattern and a callback that
    may throw ([None]).  The callback receives the matched substring.  After
    an empty match the scan moves one code unit on.  [n] bounds the number of
    matches. *)
Fixpoint replaceLoop (r : regex) (f : str -> option str) (n : nat) (s : str)
  : option str :=
  match n with
  | O => Some s
  | S n' =>
      match exec r s with
      | None => Some s
      | Some m =>
          match f (whole m) with
          | None => None
          | Some out =>
              match whole m, after m with
              | [], [] => Some (before m ++ out)
              | [], c :: a =>
                  option_map (fun rest => before m ++ out ++ c :: rest)
                             (replaceLoop r f n' a)
              | _ :: _, a =>
                  option_map (fun rest => before m ++ out ++ rest)
                             (replaceLoop r f n' a)
              end
          end
      end
  end.

Definition replace (r : regex) (f : str -> option str) (s : str) : option str :=
  replaceLoop r f (S (length s)) s.

(** [stylePathReplacer].  [None] is the [TypeError] of reading [[1]] of a
    [null] match, or of [path.split] on an [undefined] capture. *)
Definition stylePathReplacer (url : URL) (stylePath : str) : option str :=
  match exec stylePathRegex stylePath with
  | None => None
  | Some extractedURL =>
      match group1 extractedURL with
      | None => None
      | Some path =>
          let absolutePath := getAbsolutePath url path in
          if startsWith stylePath (js "url(" ++ [dquote]) then
            Some (js "url(" ++ [dquote] ++ absolutePath ++ [dquote] ++ js ")")
          else if startsWith stylePath (js "url(" ++ [squote]) then
            Some (js "url(" ++ [squote] ++ absolutePath ++ [squote] ++ js ")")
          else
            Some (js "url(" ++ absolutePath ++ js ")")
      end
  end.

(** What [changeAssetsURL] writes back for a [style] attribute or the text
    of a [style] element. *)
Definition rewriteStyle (url : URL) (css : str) : option str :=
  replace stylePathRegex (stylePathReplacer url) css.

(** What [changeAssetsURL] writes back for one candidate of a [srcset]
    attribute ([split] never returns the empty array, so [srcTokens[0]] is
    always there). *)
Definition rewriteCandidate (url : URL) (src : str) : str :=
  let src := trimLeft src in
  let srcTokens := split (ch " ") src in
  let srcTokens := <[0%nat := getAbsolutePath url (hd [] srcTokens)]> srcTokens in
  join (js " ") srcTokens.

(** What [changeAssetsURL] writes back for a [srcset] attribute. *)
Definition rewriteSrcset (url : URL) (srcset : str) : str :=
  join (js ",") (map (rewriteCandidate url) (split (ch ",") srcset)).

(** ** The request handler *)

Section GetHTML.
(** The response body of the target, the parsed document, thrown values
    and the forwarded request headers. *)
Context {Body Dom Err Headers : Type}.

(** How the outbound request completes.  The library calls the callback of
    [requestHTML] with an error, or without one and with the response; in
    the second case the awaited promise is then resolved, or rejected with
    a value of its own. *)
Inductive Completion : Type :=
| Failed (error : Err)
| Received (body : Body) (rejected : option Err).

(** The completion of the request to a URL with the forwarded headers. *)
Variable request : str -> Headers -> Completion.
(** [iconv.decode(body, charset(res.headers, body))], which throws ([inl])
    when it knows no encoding for the body. *)
Variable decode : Body -> Err + str.
(** [new JSDOM] and the [http://] upgrade of its markup. *)
Variable parse : str -> Dom.
(** [fetchAssetElements] then [changeAssetsURL] on the document. *)
Variable changeAssetsURL : str -> Dom -> Err + Dom.
(** [JSDOM.serialize]. *)
Variable serialize : Dom -> str.

(** The state a request can touch: the cache of mirrored documents and
    the log of outbound requests issued so far. *)
Record World : Type := mkWorld
  { memory : gmap str Dom; outbound : list str }.

(** Modelled from the spec: [MirroringMemory.isCached] is not part of the
    sources; the spec gives the cache as a key-value store from target URL
    to document, and [has] tells whether the URL has an entry. *)
Definition isCached (href : str) (m : gmap str Dom) : bool :=
  bool_decide (is_Some (m !! href)).
(** Modelled from the spec: [MirroringMemory.getSerializedHTML] is not part
    of the sources; the spec's [get] returns the stored document,
    serialized. *)
Definition getSerializedHTML (href : str) (m : gmap str Dom) : option str :=
  serialize <$> m !! href.
(** Modelled from the spec: [MirroringMemory.caching] is not part of the
    sources; the spec's [put] stores the document under the target URL. *)
Definition caching (href : str) (html : Dom) (m : gmap str Dom) : gmap str Dom :=
  <[href := html]> m.

(** What the client gets: [res.send], [res.json], or nothing at all when a
    value is thrown where no handler catches it and the process exits. *)
Inductive Response : Type :=
| Send (status : Z) (html : option str)
| Json (status : Z) (msg : Err)
| Uncaught (thrown : Err).

(** Where a value is thrown in [requestHTML]: by the [await], inside the
    [try] of [getHTML]; or inside the callback, which the library runs
    outside the awaited promise, so that no [catch] sees it. *)
Inductive Thrown : Type :=
| Rejected (err : Err)
| InCallback (err : Err).

(** [requestHTML]: one outbound request.  The callback throws the error it
    is given, or decodes the body, which may throw as well; when it
    returns, the [await] throws the rejection or goes on to the parsed
    document. *)
Definition requestHTML (href : str) (headers : Headers) (w : World)
  : (Thrown + Dom) * World :=
  let w' := mkWorld (memory w) (outbound w ++ [href]) in
  match request href headers with
  | Failed error => (inl (InCallback error), w')
  | Received body rejected =>
      match decode body with
      | inl err => (inl (InCallback err), w')
      | inr originalHTML =>
          match rejected with
          | Some err => (inl (Rejected err), w')
          | None => (inr (parse originalHTML), w')
          end
      end
  end.

(** The handler of [getHTML], from the cache lookup on.  With [Uncaught]
    the state is the one the process exits with. *)
Definition getHTML (href : str) (headers : Headers) (w : World)
  : Response * World :=
  if isCached href (memory w) then
    (Send 200 (getSerializedHTML href (memory w)), w)
  else
    match requestHTML href headers w with
    | (inl (InCallback err), w1) => (Uncaught err, w1)
    | (inl (Rejected err), w1) => (Json 406 err, w1)
    | (inr html, w1) =>
        match changeAssetsURL href html with
        | inl err => (Json 406 err, w1)
        | inr html' =>
            (Send 200 (Some (serialize html')),
             mkWorld (caching href html' (memory w1)) (outbound w1))
        end
    end.
End GetHTML.

(** ** Direct readings of the three path patterns *)

(** [matches r s s']: [r] can match a prefix of [s] and leave [s']. *)
Definition matches (r : regex) (s s' : str) : Prop := In s' (map fst (run r s)).

(** A scanner for [([...]+\/)*[...]*]: [inSeg] tells whether the segment
    being read already has a character, which a [/] needs. *)
Fixpoint scan (inSeg : bool) (s : str) : bool :=
  match s with
  | [] => true
  | c :: s' =>
      if pathChar c then scan true s'
      else if N.eqb c (ch "/") then inSeg && scan false s'
      else false
  end.

Definition isRoot (s : str) : bool :=
  match s with
  | c :: t => N.eqb c (ch "/") && scan false t
  | [] => false
  end.

Definition isCurrent (s : str) : bool :=
  negb (startsWith s (js "data:")) && negb (startsWith s (js "javascript:"))
  && scan false s.

Definition isParent (s : str) : bool :=
  startsWith s (js "../") && scan false (skipn 3 s).

(** ** The shape of a style match *)

(** Nothing, or one quote. *)
Definition optQuote (q : str) : Prop :=
  q = [] \/ exists c, q = [c] /\ quoteChar c = true.

(** [url(] then [open], the path, [close] and [)]. *)
Definition cssUrl (open path close : str) : str :=
  js "url(" ++ open ++ path ++ close ++ js ")".

(** What stops a run of path characters: the end, or a character outside
    the class. *)
Definition stops (t : str) : Prop := forall c t', t = c :: t' -> urlChar c = false.

(** A string without the code unit [sep]. *)
Definition without (sep : N) (s : str) : Prop :=
  forallb (fun c => negb (N.eqb c sep)) s = true.

(** A document at the top level of the host [h]. *)
Definition topLevel (file : str) : URL := mkURL (js "h") (ch "/" :: file).

(** ** The rest of the mirroring controller *)

(** [parseTargetURL].  [split] never returns the empty array, so element 0
    is always there; element 1 is [undefined] ([None]) when the original
    URL has no [?]. *)
Definition parseTargetURL (sanitizedURL originalURL : str) : str :=
  let baseURL := hd [] (split (ch "?") sanitizedURL) in
  let query := nth_error (split (ch "?") originalURL) 1 in
  match query with
  | None => baseURL
  | Some query => baseURL ++ js "?" ++ query
  end.

(** The first step of the sanitizer of [validateGetHTML]: the default
    protocol. *)
Definition withProtocol (url : str) : str :=
  if negb (startsWith url (js "http")) then js "http://" ++ url else url.

(** The sanitizer of [validateGetHTML]; [uniform] is [UniformURL.uniform],
    which is not part of the sources, and [inl] is the thrown error. *)
Definition customSanitizer {Err : Type} (uniform : str -> Err + str) (url : str)
  : str + str :=
  match uniform (withProtocol url) with
  | inl _ => inl (js "Invalid target url")
  | inr url => inr url
  end.

(** [String.prototype.includes]. *)
Fixpoint includes (s w : str) : bool :=
  startsWith s w || match s with
                    | _ :: s' => includes s' w
                    | [] => false
                    end.

(** [/(http:\/\/)/gm] *)
Definition httpRegex : regex := Group (Lit "http://").

(** The upgrade of [requestHTML] on the serialized document:
    [innerHTML.replace(httpRegex, 'https://')].  The replacement has no [$]
    pattern, so it is inserted as it is. *)
Definition upgradeHttp (html : str) : option str :=
  replace httpRegex (fun _ => Some (js "https://")) html.

(** [/(url\()/] *)
Definition styleURLRegex : regex := Group (Lit "url(").

(** [RegExp.prototype.test] for a pattern without [^]: the pattern is
    searched from every index. *)
Definition testAnywhere (r : regex) (s : str) : bool :=
  match exec r s with Some _ => true | None => false end.

(** The style values [fetchAssetElements] keeps. *)
Definition styleValues (values : list str) : list str :=
  filter (testAnywhere styleURLRegex) values.

(** ** GlueBoardController: the order of a user's boards *)

Module GlueBoardController.
Section Boards.
(** The identifiers of the boards, compared by value. *)
Context {Id : Type} `{EqDecision Id}.

(** [Array.prototype.indexOf]: the first index of [x], or -1. *)
Fixpoint indexOf (x : Id) (l : list Id) : Z :=
  match l with
  | [] => -1
  | y :: l' =>
      if decide (x = y) then 0
      else let i := indexOf x l' in if (i <? 0)%Z then -1 else (i + 1)%Z
  end.

(** [Array.prototype.splice(start, deleteCount, ...items)], the array it
    leaves behind. *)
Definition splice (start deleteCount : Z) (items l : list Id) : list Id :=
  let len := Z.of_nat (length l) in
  let actualStart := relIndex start len in
  let actualDeleteCount := Z.min (Z.max deleteCount 0) (len - actualStart) in
  firstn (Z.to_nat actualStart) l ++ items
  ++ skipn (Z.to_nat (actualStart + actualDeleteCount)) l.

(** The check of [newPosition] in [validateMove]; [false] is the thrown
    error. *)
Definition validNewPosition (newPosition : Z) (glueBoards : list Id) : bool :=
  let glueBoardCount := Z.of_nat (length glueBoards) in
  negb ((newPosition <? 0)%Z || (newPosition >=? glueBoardCount)%Z).

(** [create]: the new board is pushed. *)
Definition create (glueBoards : list Id) (id : Id) : list Id :=
  glueBoards ++ [id].

(** [move]: the board list the handler saves. *)
Definition move (glueBoards : list Id) (movedGlueBoard : Id) (newPosition : Z)
  : list Id :=
  let oldPosition := indexOf movedGlueBoard glueBoards in
  let glueBoards := splice oldPosition 1 [] glueBoards in
  splice newPosition 0 [movedGlueBoard] glueBoards.

(** [delete]: the board list the handler saves. *)
Definition delete (glueBoards : list Id) (glueBoard : Id) : list Id :=
  splice (indexOf glueBoard glueBoards) 1 [] glueBoards.
End Boards.
End GlueBoardController.

(** ** Examples from the specification *)

Definition page : URL := mkURL (js "example.com") (js "/dir/page.html").
Definition subpage : URL := mkURL (js "example.com") (js "/dir/sub/page.html").

Example root_relative :
  getAbsolutePath page (js "/a/b.png") = js "https://example.com/a/b.png".
Proof. vm_compute. reflexivity. Qed.

Example already_absolute :
  getAbsolutePath page (js "https://other.com/x.png") = js "https://other.com/x.png".
Proof. vm_compute. reflexivity. Qed.

(** ** The matcher *)

Lemma flat_map_nil {A B : Type} (f : A -> list B) (l : list A) :
  (forall x, In x l -> f x = []) -> flat_map f l = [].
Proof.
  induction l as [|x l IH]; intros H; simpl; [reflexivity|].
  rewrite (H x) by (left; reflexivity). apply IH.
  intros y Hy. apply H. right. exact Hy.
Qed.

(** Results are suffixes of the input. *)
Lemma iterate_suffix step g n :
  (forall s p, In p (step s) -> exists w, s = w ++ fst p) ->
  forall s p, In p (iterate step g n s) -> exists w, s = w ++ fst p.
Proof.
  intros Hstep. induction n as [|n IH]; intros s p; simpl.
  - intros [<-|[]]. exists []. reflexivity.
  - assert (Hmore : forall q,
      In q (flat_map (fun p0 : result =>
              if length (fst p0) <? length s then iterate step g n (fst p0)
              else []) (step s)) -> exists w, s = w ++ fst q).
    { intros q Hq. apply in_flat_map in Hq as (x & Hx & Hq).
      destruct (length (fst x) <? length s); [|destruct Hq].
      apply Hstep in Hx as (w1 & ->). apply IH in Hq as (w2 & E).
      exists (w1 ++ w2). rewrite <- app_assoc, <- E. reflexivity. }
    destruct g.
    + intros Hp. apply in_app_iff in Hp as [Hp|[<-|[]]]; [auto|exists []; reflexivity].
    + intros [<-|Hp]; [exists []; reflexivity|auto].
Qed.

Lemma run_suffix r : forall s p, In p (run r s) -> exists w, s = w ++ fst p.
Proof.
  induction r as [|c|a IHa b IHb|a IHa b IHb|g a IHa|a IHa| |a IHa];
    intros s p; cbn [run].
  - intros [<-|[]]. exists []. reflexivity.
  - destruct s as [|d s]; [intros []|]. destruct (c d); [|intros []].
    intros [<-|[]]. exists [d]. reflexivity.
  - intros H. apply in_flat_map in H as (x & Hx & H).
    apply in_map_iff in H as (y & <- & Hy).
    apply IHa in Hx as (w1 & ->). apply IHb in Hy as (w2 & E).
    exists (w1 ++ w2). cbn [fst]. rewrite <- app_assoc, <- E. reflexivity.
  - intros H. apply in_app_iff in H as [H|H]; auto.
  - apply iterate_suffix. exact IHa.
  - intros H. apply in_map_iff in H as (x & <- & Hx). cbn [fst]. auto.
  - destruct s; [|intros []]. intros [<-|[]]. exists []. reflexivity.
  - destruct (run a s); [|intros []]. intros [<-|[]]. exists []. reflexivity.
Qed.

(** Fuel beyond the length of the input changes nothing. *)
Lemma iterate_fuel step g n m s :
  length s <= n -> length s <= m -> iterate step g n s = iterate step g m s.
Proof.
  revert m s. induction n as [|n IH]; intros m s Hn Hm.
  - destruct s; [|simpl in Hn; lia].
    destruct m; [reflexivity|]. simpl.
    rewrite flat_map_nil; [destruct g; reflexivity|]. intros x _. reflexivity.
  - destruct m as [|m].
    + destruct s; [|simpl in Hm; lia]. simpl.
      rewrite flat_map_nil; [destruct g; reflexivity|]. intros x _. reflexivity.
    + simpl.
      assert (E : flat_map (fun p : result =>
                    if length (fst p) <? length s then iterate step g n (fst p)
                    else []) (step s)
                = flat_map (fun p : result =>
                    if length (fst p) <? length s then iterate step g m (fst p)
                    else []) (step s)).
      { apply flat_map_ext. intros p.
        destruct (Nat.ltb_spec (length (fst p)) (length s)); [|reflexivity].
        apply IH; lia. }
      rewrite E. reflexivity.
Qed.

(** The unfolding of a starred pattern. *)
Lemma run_Star g a s :
  run (Star g a) s =
  let more :=
    flat_map (fun p : result =>
                if length (fst p) <? length s then run (Star g a) (fst p)
                else []) (run a s) in
  if g then more ++ [(s, None)] else (s, None) :: more.
Proof.
  cbn [run]. destruct s as [|c s].
  - cbn [length iterate]. rewrite flat_map_nil; [destruct g; reflexivity|].
    intros x _. reflexivity.
  - cbn [length iterate].
    assert (E : flat_map (fun p : result =>
                  if length (fst p) <? S (length s)
                  then iterate (run a) g (length s) (fst p) else []) (run a (c :: s))
              = flat_map (fun p : result =>
                  if length (fst p) <? S (length s)
                  then iterate (run a) g (length (fst p)) (fst p) else [])
                  (run a (c :: s))).
    { apply flat_map_ext. intros p.
      destruct (Nat.ltb_spec (length (fst p)) (S (length s))); [|reflexivity].
      apply iterate_fuel; lia. }
    rewrite E. reflexivity.
Qed.

Lemma test_matches r s : test r s = true <-> exists s', matches r s s'.
Proof.
  unfold test, matches. destruct (run r s) as [|p l]; simpl.
  - split; [discriminate|]. intros [s' []].
  - split; [|reflexivity]. intros _. exists (fst p). left. reflexivity.
Qed.

Lemma matches_Eps s s' : matches Eps s s' <-> s' = s.
Proof. unfold matches. simpl. intuition. Qed.

Lemma matches_Class p s s' :
  matches (Class p) s s' <-> exists c, s = c :: s' /\ p c = true.
Proof.
  unfold matches. simpl. destruct s as [|c s]; simpl.
  - split; [intros []|]. intros (c & H & _). discriminate.
  - destruct (p c) eqn:E; simpl.
    + split.
      * intros [<-|[]]. exists c. auto.
      * intros (d & H & _). injection H as _ ->. left. reflexivity.
    + split; [intros []|]. intros (d & H & Hd). injection H as -> _. congruence.
Qed.

Lemma matches_Cat a b s s' :
  matches (Cat a b) s s' <-> exists s1, matches a s s1 /\ matches b s1 s'.
Proof.
  unfold matches. simpl. rewrite in_map_iff. split.
  - intros (q & <- & Hq). apply in_flat_map in Hq as (p & Hp & Hq).
    apply in_map_iff in Hq as (q' & <- & Hq'). simpl.
    exists (fst p). split; apply in_map; assumption.
  - intros (s1 & H1 & H2).
    apply in_map_iff in H1 as (p & <- & Hp).
    apply in_map_iff in H2 as (q & <- & Hq).
    exists (fst q, orElse (snd q) (snd p)). split; [reflexivity|].
    apply in_flat_map. exists p. split; [assumption|].
    apply in_map_iff. exists q. auto.
Qed.

Lemma matches_Alt a b s s' :
  matches (Alt a b) s s' <-> matches a s s' \/ matches b s s'.
Proof. unfold matches. simpl. rewrite map_app, in_app_iff. reflexivity. Qed.

Lemma matches_Eos s s' : matches Eos s s' <-> s = [] /\ s' = [].
Proof.
  unfold matches. simpl. destruct s; simpl.
  - intuition.
  - split; [intros []|]. intros [H _]. discriminate.
Qed.

Lemma matches_NotAhead a s s' :
  matches (NotAhead a) s s' <-> s' = s /\ test a s = false.
Proof.
  unfold matches, test. simpl. destruct (run a s); simpl.
  - intuition.
  - split; [intros []|]. intros [_ H]. discriminate.
Qed.

Lemma matches_Star g a s s' :
  matches (Star g a) s s' <->
  s' = s \/ exists s1, matches a s s1 /\ length s1 < length s
                       /\ matches (Star g a) s1 s'.
Proof.
  unfold matches at 1. rewrite run_Star. cbv zeta.
  assert (Hmore : forall q,
    In q (flat_map (fun p : result =>
            if length (fst p) <? length s then run (Star g a) (fst p) else [])
            (run a s))
    <-> exists p, In p (run a s) /\ length (fst p) < length s
                  /\ In q (run (Star g a) (fst p))).
  { intros q. rewrite in_flat_map. split; intros (p & Hp & Hq); exists p.
    - destruct (Nat.ltb_spec (length (fst p)) (length s)); [auto|destruct Hq].
    - destruct Hq as [Hlt Hq]. split; [assumption|].
      destruct (Nat.ltb_spec (length (fst p)) (length s)); [assumption|lia]. }
  assert (Hin : In s' (map fst (if g
     then flat_map (fun p : result =>
            if length (fst p) <? length s then run (Star g a) (fst p) else [])
            (run a s) ++ [(s, None)]
     else (s, None) :: flat_map (fun p : result =>
            if length (fst p) <? length s then run (Star g a) (fst p) else [])
            (run a s)))
    <-> s' = s \/ In s' (map fst (flat_map (fun p : result =>
            if length (fst p) <? length s then run (Star g a) (fst p) else [])
            (run a s)))).
  { destruct g; simpl; [rewrite map_app, in_app_iff; simpl|]; intuition. }
  rewrite Hin. clear Hin. split.
  - intros [->|H]; [left; reflexivity|right].
    apply in_map_iff in H as (q & <- & Hq). apply Hmore in Hq as (p & Hp & Hlt & Hq).
    exists (fst p). unfold matches. split; [apply in_map; assumption|].
    split; [assumption|apply in_map; assumption].
  - intros [->|(s1 & H1 & Hlt & H2)]; [left; reflexivity|right].
    unfold matches in H1, H2.
    apply in_map_iff in H1 as (p & <- & Hp).
    apply in_map_iff in H2 as (q & <- & Hq).
    apply in_map. apply Hmore. exists p. auto.
Qed.

Lemma matches_Star_Class g p s s' :
  matches (Star g (Class p)) s s' <->
  exists w, s = w ++ s' /\ forallb p w = true.
Proof.
  split.
  - revert s'. induction s as [|c s IH]; intros s' H;
      apply matches_Star in H as [->|(s1 & H1 & Hlt & H2)].
    + exists []. auto.
    + simpl in Hlt. lia.
    + exists []. auto.
    + apply matches_Class in H1 as (d & E & Hd). injection E as <- <-.
      apply IH in H2 as (w & -> & Hw). exists (c :: w). simpl.
      rewrite Hd, Hw. auto.
  - intros (w & -> & Hw). induction w as [|c w IH]; apply matches_Star.
    + left. reflexivity.
    + right. simpl in Hw. apply andb_true_iff in Hw as [Hc Hw].
      exists (w ++ s'). split; [apply matches_Class; exists c; auto|].
      split; [simpl; lia|auto].
Qed.

(** ** The three path patterns *)

(** One [[...]+\/] iteration. *)
Lemma matches_segment s s1 :
  matches (Cat (Plus (Class pathChar)) (Chr "/")) s s1 <->
  exists w, w <> [] /\ forallb pathChar w = true /\ s = w ++ ch "/" :: s1.
Proof.
  unfold Plus, Chr. rewrite matches_Cat. split.
  - intros (x & H1 & H2).
    apply matches_Cat in H1 as (y & Hy & Hs).
    apply matches_Class in Hy as (c & -> & Hc).
    apply matches_Star_Class in Hs as (w & -> & Hw).
    apply matches_Class in H2 as (d & -> & Hd).
    apply N.eqb_eq in Hd as <-.
    exists (c :: w). simpl. rewrite Hc, Hw. repeat split. discriminate.
  - intros (w & Hne & Hw & ->). destruct w as [|c w]; [congruence|].
    simpl in Hw. apply andb_true_iff in Hw as [Hc Hw].
    exists (ch "/" :: s1). split.
    + apply matches_Cat. exists (w ++ ch "/" :: s1).
      split; [apply matches_Class; exists c; auto|].
      apply matches_Star_Class. exists w. auto.
    + apply matches_Class. exists (ch "/"). split; [reflexivity|apply N.eqb_refl].
Qed.

Lemma scan_all b w : forallb pathChar w = true -> scan b w = true.
Proof.
  revert b. induction w as [|c w IH]; intros b H; [reflexivity|].
  simpl in *. apply andb_true_iff in H as [-> H]. auto.
Qed.

Lemma scan_word b w t :
  w <> [] -> forallb pathChar w = true -> scan b (w ++ t) = scan true t.
Proof.
  revert b. induction w as [|c w IH]; intros b Hne H; [congruence|].
  simpl in *. apply andb_true_iff in H as [-> H].
  destruct w as [|d w]; [reflexivity|]. apply IH; [discriminate|assumption].
Qed.

(** A string is a run of class characters followed by nothing or by a
    character outside the class. *)
Lemma span_pathChar (s : str) :
  exists w t, s = w ++ t /\ forallb pathChar w = true
              /\ (t = [] \/ exists c t', t = c :: t' /\ pathChar c = false).
Proof.
  induction s as [|c s (w & t & -> & Hw & Ht)].
  - exists [], []. auto.
  - destruct (pathChar c) eqn:Hc.
    + exists (c :: w), t. simpl. rewrite Hc, Hw. auto.
    + exists [], (c :: w ++ t). simpl. repeat split. right. eauto.
Qed.

Lemma segments_sound n : forall s s1,
  length s <= n ->
  matches (Star true (Cat (Plus (Class pathChar)) (Chr "/"))) s s1 ->
  scan false s1 = true -> scan false s = true.
Proof.
  induction n as [|n IH]; intros s s1 Hn H Hs1;
    apply matches_Star in H as [->|(s2 & H2 & Hlt & H)]; try assumption.
  - lia.
  - apply matches_segment in H2 as (w & Hne & Hw & ->).
    rewrite scan_word by assumption. change (scan false s2 = true).
    rewrite length_app in Hlt. cbn [length] in Hlt.
    apply (IH s2 s1); [rewrite length_app in Hn; cbn [length] in Hn; lia|assumption|assumption].
Qed.

Lemma segments_complete n : forall s,
  length s <= n -> scan false s = true -> matches segments s [].
Proof.
  induction n as [|n IH]; intros s Hn Hs.
  - destruct s; [|simpl in Hn; lia].
    apply matches_Cat. exists []. split; apply matches_Star; auto.
  - destruct (span_pathChar s) as (w & t & -> & Hw & [->|(c & t' & -> & Hc)]).
    + apply matches_Cat. exists (w ++ []). split; [apply matches_Star; auto|].
      apply matches_Star_Class. exists w. rewrite app_nil_r. auto.
    + destruct w as [|d w].
      * cbn [app scan] in Hs. rewrite Hc in Hs.
        destruct (N.eqb c (ch "/")); discriminate.
      * rewrite scan_word in Hs by (assumption || discriminate).
        cbn [scan] in Hs. rewrite Hc in Hs.
        destruct (N.eqb_spec c (ch "/")) as [->|]; [|discriminate].
        cbn [andb] in Hs. rewrite length_app in Hn. cbn [length] in Hn.
        assert (Ht : matches segments t' []) by (apply IH; [lia|assumption]).
        apply matches_Cat in Ht as (s1 & H1 & H2).
        apply matches_Cat. exists s1. split; [|assumption].
        apply matches_Star. right. exists t'.
        split; [apply matches_segment; exists (d :: w); repeat split;
                  [discriminate|assumption]|].
        split; [rewrite length_app; simpl; lia|assumption].
Qed.

Lemma matches_segments s : matches segments s [] <-> scan false s = true.
Proof.
  split.
  - intros H. apply matches_Cat in H as (s1 & H1 & H2).
    apply matches_Star_Class in H2 as (w & -> & Hw). rewrite app_nil_r in H1.
    apply (segments_sound (length s) s w); [lia|assumption|].
    apply scan_all. assumption.
  - apply (segments_complete (length s)). lia.
Qed.

(** The common tail [(([...]+\/)*[...]*$)?$] of the three patterns. *)
Lemma matches_tail s s' :
  matches (Cat (Opt (Cat segments Eos)) Eos) s s' <->
  s' = [] /\ scan false s = true.
Proof.
  unfold Opt. rewrite matches_Cat. split.
  - intros (s1 & H1 & H2). apply matches_Eos in H2 as [-> ->].
    split; [reflexivity|].
    apply matches_Alt in H1 as [H|H].
    + apply matches_Cat in H as (s2 & H & H2).
      apply matches_Eos in H2 as [-> _]. apply matches_segments. assumption.
    + apply matches_Eps in H. subst s. reflexivity.
  - intros [-> H]. exists []. split; [|apply matches_Eos; auto].
    apply matches_Alt. left. apply matches_Cat. exists [].
    split; [apply matches_segments; assumption|apply matches_Eos; auto].
Qed.

Lemma startsWith_true s w : startsWith s w = true <-> exists t, s = w ++ t.
Proof.
  revert s. induction w as [|c w IH]; intros s; simpl.
  - split; eauto.
  - destruct s as [|d s].
    + split; [discriminate|]. intros (t & H). discriminate.
    + rewrite andb_true_iff, N.eqb_eq, IH. split.
      * intros (-> & t & ->). eauto.
      * intros (t & H). injection H as -> ->. eauto.
Qed.

Lemma test_literal (l s : str) :
  test (fold_right (fun c r => Cat (Class (N.eqb c)) r) Eps l) s = startsWith s l.
Proof.
  apply eq_iff_eq_true. rewrite test_matches. revert s.
  induction l as [|c l IH]; intros s; simpl.
  - split; [reflexivity|]. intros _. exists s. apply matches_Eps. reflexivity.
  - split.
    + intros (s' & H). apply matches_Cat in H as (s1 & H1 & H2).
      apply matches_Class in H1 as (d & -> & Hd). rewrite Hd. simpl.
      apply IH. eauto.
    + destruct s as [|d s]; [discriminate|]. intros H.
      apply andb_true_iff in H as [Hd H]. apply IH in H as (s' & H).
      exists s'. apply matches_Cat. exists s. split; [|assumption].
      apply matches_Class. eauto.
Qed.

Lemma test_Lit w s : test (Lit w) s = startsWith s (js w).
Proof. apply test_literal. Qed.

Lemma test_rootPathRegex s : test rootPathRegex s = isRoot s.
Proof.
  apply eq_iff_eq_true. rewrite test_matches. unfold rootPathRegex, Chr, isRoot.
  split.
  - intros (s' & H). apply matches_Cat in H as (t & H1 & H2).
    apply matches_Class in H1 as (c & -> & Hc). apply N.eqb_eq in Hc as <-.
    apply matches_tail in H2 as [_ ->]. reflexivity.
  - destruct s as [|c t]; [discriminate|]. intros H.
    apply andb_true_iff in H as [Hc H]. apply N.eqb_eq in Hc as ->.
    exists []. apply matches_Cat. exists t.
    split; [apply matches_Class; exists (ch "/"); split; [reflexivity|apply N.eqb_refl]|].
    apply matches_tail. auto.
Qed.

Lemma test_currentPathRegex s : test currentPathRegex s = isCurrent s.
Proof.
  apply eq_iff_eq_true. rewrite test_matches. unfold currentPathRegex, isCurrent.
  rewrite !andb_true_iff, !negb_true_iff, <- !test_Lit. split.
  - intros (s' & H). apply matches_Cat in H as (s1 & H1 & H).
    apply matches_NotAhead in H1 as [-> H1].
    apply matches_Cat in H as (s2 & H2 & H).
    apply matches_NotAhead in H2 as [-> H2].
    apply matches_tail in H as [_ H]. auto.
  - intros [[H1 H2] H]. exists []. apply matches_Cat. exists s.
    split; [apply matches_NotAhead; auto|]. apply matches_Cat. exists s.
    split; [apply matches_NotAhead; auto|]. apply matches_tail. auto.
Qed.

Lemma test_parentPathRegex s : test parentPathRegex s = isParent s.
Proof.
  apply eq_iff_eq_true. rewrite test_matches. unfold parentPathRegex, Chr, isParent.
  split.
  - intros (s' & H).
    apply matches_Cat in H as (s1 & H1 & H).
    apply matches_Class in H1 as (c1 & -> & Hc1). apply N.eqb_eq in Hc1 as <-.
    apply matches_Cat in H as (s2 & H2 & H).
    apply matches_Class in H2 as (c2 & -> & Hc2). apply N.eqb_eq in Hc2 as <-.
    apply matches_Cat in H as (s3 & H3 & H).
    apply matches_Class in H3 as (c3 & -> & Hc3). apply N.eqb_eq in Hc3 as <-.
    apply matches_tail in H as [_ H]. simpl. exact H.
  - intros H. apply andb_true_iff in H as [Hp H].
    apply startsWith_true in Hp as (t & ->).
    change (scan false t = true) in H.
    change (js "../" ++ t) with (ch "." :: ch "." :: ch "/" :: t).
    exists []. repeat (apply matches_Cat; eexists; split;
      [apply matches_Class; eexists; split; [reflexivity|apply N.eqb_refl]|]).
    apply matches_tail. auto.
Qed.

(** ** Arrays *)

Lemma split_not_nil sep s : split sep s <> [].
Proof.
  destruct s as [|c s]; simpl; [discriminate|].
  destruct (N.eqb c sep); [discriminate|]. destruct (split sep s); discriminate.
Qed.

Lemma slice_drop_last {A : Type} (l : list A) : slice 0 (-1) l = removelast l.
Proof.
  unfold slice, relIndex. cbn [Z.ltb Z.compare].
  rewrite Z.min_l by lia. rewrite Z.sub_0_r. cbn [Z.to_nat skipn].
  rewrite removelast_firstn_len. f_equal. lia.
Qed.

Lemma removelast_cons {A : Type} (x : A) (l : list A) :
  l <> [] -> removelast (x :: l) = x :: removelast l.
Proof. destruct l; [congruence|reflexivity]. Qed.

Lemma join_cons sep x l : l <> [] -> join sep (x :: l) = x ++ sep ++ join sep l.
Proof. destruct l; [congruence|reflexivity]. Qed.

Lemma join_snoc sep l x : l <> [] -> join sep (l ++ [x]) = join sep l ++ sep ++ x.
Proof.
  induction l as [|y l IH]; intros Hne; [congruence|].
  destruct l as [|z l]; [reflexivity|].
  change ((y :: z :: l) ++ [x]) with (y :: (z :: l) ++ [x]).
  rewrite !join_cons by (try discriminate; destruct l; discriminate).
  rewrite IH by discriminate. rewrite <- !app_assoc. reflexivity.
Qed.

(** ** getAbsolutePath *)

Lemma getAbsolutePath_cases url path :
  getAbsolutePath url path =
  if isRoot path then js "https://" ++ host url ++ path
  else if isCurrent path then
    js "https://" ++ host url ++
    join (js "/") (removelast (split (ch "/") (pathname url)) ++ split (ch "/") path)
  else if isParent path then
    js "https://" ++ host url ++
    join (js "/") (slice 0 (-2) (split (ch "/") (pathname url))
                   ++ sliceFrom 1 (split (ch "/") path))
  else path.
Proof.
  unfold getAbsolutePath.
  rewrite test_rootPathRegex, test_currentPathRegex, test_parentPathRegex.
  rewrite slice_drop_last. reflexivity.
Qed.

(** A string that starts with [https://] matches none of the patterns. *)
Lemma https_unchanged url x :
  getAbsolutePath url (js "https://" ++ x) = js "https://" ++ x.
Proof.
  rewrite getAbsolutePath_cases.
  change (isRoot (js "https://" ++ x)) with false.
  change (isCurrent (js "https://" ++ x)) with false.
  change (isParent (js "https://" ++ x)) with false.
  reflexivity.
Qed.

(** The root pattern excludes the other two. *)
Lemma isRoot_not_current s : isRoot s = true -> isCurrent s = false.
Proof.
  destruct s as [|c t]; [discriminate|]. simpl.
  intros H. apply andb_true_iff in H as [Hc _]. apply N.eqb_eq in Hc as ->.
  unfold isCurrent. change (scan false (ch "/" :: t)) with false.
  apply andb_false_r.
Qed.

Lemma isRoot_not_parent s : isRoot s = true -> isParent s = false.
Proof.
  destruct s as [|c t]; [discriminate|]. simpl.
  intros H. apply andb_true_iff in H as [Hc _]. apply N.eqb_eq in Hc as ->.
  reflexivity.
Qed.

(** Every string of the parent pattern is a string of the current pattern,
    which is tested first: the parent branch is never taken. *)
Lemma isParent_current s : isParent s = true -> isCurrent s = true.
Proof.
  unfold isParent. intros H. apply andb_true_iff in H as [Hp H].
  apply startsWith_true in Hp as (t & ->).
  change (scan false t = true) in H. unfold isCurrent.
  change (startsWith (js "../" ++ t) (js "data:")) with false.
  change (startsWith (js "../" ++ t) (js "javascript:")) with false.
  change (scan false (js "../" ++ t)) with (true && scan false t).
  rewrite H. reflexivity.
Qed.

Lemma parent_branch_dead url path :
  test parentPathRegex path = true ->
  getAbsolutePath url path =
  js "https://" ++ host url ++
  join (js "/") (removelast (split (ch "/") (pathname url)) ++ split (ch "/") path).
Proof.
  rewrite test_parentPathRegex. intros H. rewrite getAbsolutePath_cases.
  rewrite (isParent_current _ H).
  destruct (isRoot path) eqn:E; [|reflexivity].
  apply isRoot_not_parent in E. congruence.
Qed.

Lemma unmatched_unchanged url path :
  test rootPathRegex path = false ->
  test currentPathRegex path = false ->
  test parentPathRegex path = false ->
  getAbsolutePath url path = path.
Proof. unfold getAbsolutePath. intros -> -> ->. reflexivity. Qed.

Lemma getAbsolutePath_current url p :
  test currentPathRegex p = true ->
  getAbsolutePath url p
  = js "https://" ++ host url ++
    join (js "/") (removelast (split (ch "/") (pathname url)) ++ split (ch "/") p).
Proof.
  rewrite test_currentPathRegex. intros Hcur.
  rewrite getAbsolutePath_cases, Hcur.
  destruct (isRoot p) eqn:Er; [|reflexivity].
  apply isRoot_not_current in Er. congruence.
Qed.

(** ** Claims about getAbsolutePath *)

(** C1 (fails on the code).  The parent-relative example of the
    specification: for the target [/dir/sub/page.html] and the raw path
    [../img/b.png] the code does not drop two segments and strip the [../];
    the path is taken by the current-relative branch, which keeps the [..]
    segment, so the result is not [https://example.com/dir/img/b.png]. *)
Theorem parent_relative_example_differs :
  getAbsolutePath subpage (js "../img/b.png")
    = js "https://example.com/dir/sub/../img/b.png"
  /\ getAbsolutePath subpage (js "../img/b.png")
    <> js "https://example.com/dir/img/b.png".
Proof.
  assert (E : getAbsolutePath subpage (js "../img/b.png")
              = js "https://example.com/dir/sub/../img/b.png")
    by (vm_compute; reflexivity).
  split; [exact E|]. rewrite E. vm_compute. discriminate.
Qed.

(** C2 (fails on the code).  The patterns are not mutually exclusive: the
    raw path [../img/b.png] matches both the current-relative and the
    parent-relative pattern. *)
Theorem current_and_parent_overlap :
  test currentPathRegex (js "../img/b.png") = true
  /\ test parentPathRegex (js "../img/b.png") = true.
Proof. split; vm_compute; reflexivity. Qed.

(** C3.  Absolutization is idempotent: a second application leaves the
    result of the first unchanged, for every target and every raw path. *)
Theorem getAbsolutePath_idempotent (url : URL) (p : str) :
  getAbsolutePath url (getAbsolutePath url p) = getAbsolutePath url p.
Proof.
  rewrite (getAbsolutePath_cases url p).
  destruct (isRoot p) eqn:Er; [apply https_unchanged|].
  destruct (isCurrent p) eqn:Ec; [apply https_unchanged|].
  destruct (isParent p) eqn:Ep; [apply https_unchanged|].
  rewrite getAbsolutePath_cases, Er, Ec, Ep. reflexivity.
Qed.

(** C8.  For a raw path that matches the current-relative pattern, the
    result is [https://], the host, and the segments of the target's path
    without the last one followed by the segments of the raw path, joined
    with [/]; when the target's path starts with [/], as the path of a URL
    does, this reads [https://{host}/{joined segments}]. *)
Theorem current_relative_result (url : URL) (p : str)
  (Hcur : test currentPathRegex p = true) :
  getAbsolutePath url p
    = js "https://" ++ host url ++
      join (js "/") (removelast (split (ch "/") (pathname url)) ++ split (ch "/") p)
  /\ forall rest, pathname url = ch "/" :: rest ->
     getAbsolutePath url p
     = js "https://" ++ host url ++ js "/" ++
       join (js "/") (removelast (split (ch "/") rest) ++ split (ch "/") p).
Proof.
  pose proof (getAbsolutePath_current url p Hcur) as E.
  split; [exact E|]. intros rest Hpath. rewrite E, Hpath.
  change (split (ch "/") (ch "/" :: rest)) with ([] :: split (ch "/") rest).
  rewrite removelast_cons by apply split_not_nil.
  change (([] :: removelast (split (ch "/") rest)) ++ split (ch "/") p)
    with ([] :: (removelast (split (ch "/") rest) ++ split (ch "/") p)).
  rewrite join_cons; [reflexivity|].
  intros H. apply app_eq_nil in H as [_ H]. exact (split_not_nil _ _ H).
Qed.

Lemma current_relative_example :
  test currentPathRegex (js "img/b.png") = true
  /\ getAbsolutePath page (js "img/b.png") = js "https://example.com/dir/img/b.png".
Proof.
  split; [vm_compute; reflexivity|].
  etransitivity.
  - apply (proj2 (current_relative_result page (js "img/b.png") eq_refl)
                 (js "dir/page.html")).
    reflexivity.
  - vm_compute. reflexivity.
Defined.

(** C9.  A raw path that begins with [data:] or [javascript:] is returned
    unchanged, whatever the target. *)
Theorem opaque_scheme_unchanged (url : URL) (rest : str) :
  getAbsolutePath url (js "data:" ++ rest) = js "data:" ++ rest
  /\ getAbsolutePath url (js "javascript:" ++ rest) = js "javascript:" ++ rest
  /\ getAbsolutePath url (js "data:image/png;base64,AAAA")
     = js "data:image/png;base64,AAAA".
Proof.
  assert (Hd : forall r, getAbsolutePath url (js "data:" ++ r) = js "data:" ++ r).
  { intros r. rewrite getAbsolutePath_cases.
    change (isRoot (js "data:" ++ r)) with false.
    change (isCurrent (js "data:" ++ r)) with false.
    change (isParent (js "data:" ++ r)) with false. reflexivity. }
  split; [apply Hd|]. split; [|apply (Hd (js "image/png;base64,AAAA"))].
  rewrite getAbsolutePath_cases.
  change (isRoot (js "javascript:" ++ rest)) with false.
  change (isCurrent (js "javascript:" ++ rest)) with false.
  change (isParent (js "javascript:" ++ rest)) with false. reflexivity.
Qed.

(** C10.  The empty raw path matches the current-relative pattern and is
    not returned unchanged: the result is [https://], the host, the target's
    path without its last segment, and a [/]. *)
Theorem empty_path_result (url : URL) (rest : str)
  (Hpath : pathname url = ch "/" :: rest) :
  test rootPathRegex [] = false
  /\ test currentPathRegex [] = true
  /\ getAbsolutePath url []
     = js "https://" ++ host url ++
       join (js "/") (removelast (split (ch "/") (pathname url))) ++ js "/"
  /\ getAbsolutePath url [] <> [].
Proof.
  split; [reflexivity|]. split; [reflexivity|].
  assert (E : getAbsolutePath url []
     = js "https://" ++ host url ++
       join (js "/") (removelast (split (ch "/") (pathname url))) ++ js "/").
  { rewrite getAbsolutePath_cases.
    change (isRoot []) with false. change (isCurrent []) with true. cbv iota.
    change (split (ch "/") []) with [@nil N].
    rewrite join_snoc; [rewrite app_nil_r; reflexivity|].
    rewrite Hpath.
    change (split (ch "/") (ch "/" :: rest)) with ([] :: split (ch "/") rest).
    rewrite removelast_cons by apply split_not_nil. discriminate. }
  split; [exact E|]. rewrite E. discriminate.
Qed.

Lemma empty_path_example :
  pathname page = ch "/" :: js "dir/page.html"
  /\ getAbsolutePath page [] = js "https://example.com/dir/".
Proof.
  split; [reflexivity|].
  etransitivity.
  - apply (proj1 (proj2 (proj2 (empty_path_result page (js "dir/page.html") eq_refl)))).
  - vm_compute. reflexivity.
Defined.

(** ** The style pattern *)

Lemma orElse_None_r c : orElse c None = c.
Proof. destruct c; reflexivity. Qed.

Lemma map_orElse_None (l : list result) :
  map (fun q : result => (fst q, orElse (snd q) None)) l = l.
Proof.
  induction l as [|[x c] l IH]; [reflexivity|].
  simpl. rewrite orElse_None_r, IH. reflexivity.
Qed.

Lemma flat_map_map {A B C : Type} (f : B -> list C) (g : A -> B) (l : list A) :
  flat_map f (map g l) = flat_map (fun x => f (g x)) l.
Proof. induction l as [|x l IH]; [reflexivity|]. simpl. rewrite IH. reflexivity. Qed.

Lemma run_Cat_one a b s s1 c1 :
  run a s = [(s1, c1)] ->
  run (Cat a b) s = map (fun q : result => (fst q, orElse (snd q) c1)) (run b s1).
Proof. intros H. cbn [run]. rewrite H. simpl. apply app_nil_r. Qed.

Lemma run_literal (l x : str) :
  run (fold_right (fun c r => Cat (Class (N.eqb c)) r) Eps l) (l ++ x) = [(x, None)].
Proof.
  induction l as [|c l IH]; [reflexivity|].
  cbn [fold_right]. rewrite (run_Cat_one _ _ _ (l ++ x) None).
  - rewrite IH. reflexivity.
  - simpl. rewrite N.eqb_refl. reflexivity.
Qed.

Lemma matches_literal (l s s' : str) :
  matches (fold_right (fun c r => Cat (Class (N.eqb c)) r) Eps l) s s'
  <-> s = l ++ s'.
Proof.
  revert s. induction l as [|c l IH]; intros s; cbn [fold_right].
  - rewrite matches_Eps. simpl. intuition.
  - rewrite matches_Cat. split.
    + intros (s1 & H1 & H2). apply matches_Class in H1 as (d & -> & Hd).
      apply N.eqb_eq in Hd as <-. apply IH in H2 as ->. reflexivity.
    + intros ->. exists (l ++ s'). split; [|apply IH; reflexivity].
      apply matches_Class. exists c. split; [reflexivity|apply N.eqb_refl].
Qed.

Lemma matches_Group a s s' : matches (Group a) s s' <-> matches a s s'.
Proof.
  unfold matches. cbn [run]. rewrite map_map. cbn [fst]. reflexivity.
Qed.

Lemma run_StarLazy_Class p s :
  run (Star false (Class p)) s =
  (s, None) :: match s with
               | c :: s' => if p c then run (Star false (Class p)) s' else []
               | [] => []
               end.
Proof.
  rewrite run_Star at 1. cbv zeta. f_equal.
  destruct s as [|c s]; [reflexivity|]. cbn [run].
  destruct (p c); [|reflexivity]. cbn [flat_map fst length].
  rewrite (proj2 (Nat.ltb_lt _ _) (Nat.lt_succ_diag_r _)). apply app_nil_r.
Qed.

(** The lazy loop hands every prefix of the run to what follows; when what
    follows rejects an input that starts inside the run, only the whole run
    is left. *)
Lemma lazy_run_skips (H : result -> list result) w t :
  (forall c x o, urlChar c = true -> H (c :: x, o) = []) ->
  forallb urlChar w = true -> stops t ->
  flat_map H (run (Star false (Class urlChar)) (w ++ t)) = H (t, None).
Proof.
  intros HH Hw Ht. induction w as [|c w IH].
  - cbn [app]. rewrite run_StarLazy_Class. destruct t as [|d t'].
    + simpl. apply app_nil_r.
    + rewrite (Ht d t' eq_refl). simpl. apply app_nil_r.
  - cbn [forallb] in Hw. apply andb_true_iff in Hw as [Hc Hw].
    cbn [app]. rewrite run_StarLazy_Class, Hc. cbn [flat_map].
    rewrite HH by assumption. apply IH. assumption.
Qed.

Lemma firstn_prefix {A : Type} (w t : list A) :
  firstn (length (w ++ t) - length t) (w ++ t) = w.
Proof.
  rewrite length_app. replace (length w + length t - length t) with (length w) by lia.
  rewrite firstn_app, Nat.sub_diag, firstn_all. simpl. apply app_nil_r.
Qed.

Lemma run_body K w t :
  w <> [] -> forallb urlChar w = true -> stops t ->
  (forall c x, urlChar c = true -> run K (c :: x) = []) ->
  run (Cat (Group (PlusLazy (Class urlChar))) K) (w ++ t)
  = map (fun q : result => (fst q, orElse (snd q) (Some w))) (run K t).
Proof.
  intros Hne Hw Ht HK. destruct w as [|c w]; [congruence|].
  cbn [forallb] in Hw. apply andb_true_iff in Hw as [Hc Hw].
  unfold PlusLazy.
  change (run (Cat (Group (Cat (Class urlChar) (Star false (Class urlChar)))) K)
              ((c :: w) ++ t))
    with (flat_map (fun p : result =>
            map (fun q : result => (fst q, orElse (snd q) (snd p))) (run K (fst p)))
          (map (fun p : result =>
                  (fst p, Some (firstn (length ((c :: w) ++ t) - length (fst p))
                                       ((c :: w) ++ t))))
               (run (Cat (Class urlChar) (Star false (Class urlChar)))
                    ((c :: w) ++ t)))).
  rewrite (run_Cat_one _ _ _ (w ++ t) None) by (simpl; rewrite Hc; reflexivity).
  rewrite map_orElse_None, flat_map_map.
  rewrite (lazy_run_skips _ w t); try assumption.
  - cbn [fst snd]. rewrite firstn_prefix. reflexivity.
  - intros d x o Hd. cbn [fst snd]. rewrite HK by assumption. reflexivity.
Qed.

Lemma run_body_fail K s :
  stops s -> run (Cat (Group (PlusLazy (Class urlChar))) K) s = [].
Proof.
  intros Hs. cbn [run PlusLazy]. destruct s as [|c s]; [reflexivity|].
  rewrite (Hs c s eq_refl). reflexivity.
Qed.

Lemma urlChar_true c :
  urlChar c = true -> quoteChar c = false /\ N.eqb (ch ")") c = false.
Proof.
  unfold urlChar. rewrite negb_true_iff, !orb_false_iff, (N.eqb_sym (ch ")")).
  tauto.
Qed.

Lemma quoteChar_true c : quoteChar c = true -> c = squote \/ c = dquote.
Proof.
  unfold quoteChar. rewrite orb_true_iff, !N.eqb_eq. tauto.
Qed.

Lemma quoteChar_not_urlChar c : quoteChar c = true -> urlChar c = false.
Proof. intros H. unfold urlChar. rewrite H. reflexivity. Qed.

(** The end of the pattern: an optional quote, then the parenthesis. *)
Lemma run_close_reject c x :
  urlChar c = true ->
  run (Cat (Opt (Class quoteChar)) (Chr ")")) (c :: x) = [].
Proof.
  intros H. apply urlChar_true in H as [Hq Hp].
  cbn [run Opt Chr]. rewrite Hq. cbn [app flat_map fst]. rewrite Hp. reflexivity.
Qed.

Lemma run_close q rest :
  optQuote q ->
  run (Cat (Opt (Class quoteChar)) (Chr ")")) (q ++ ch ")" :: rest) = [(rest, None)].
Proof.
  intros [->|(c & -> & Hc)]; [reflexivity|].
  apply quoteChar_true in Hc as [->| ->]; reflexivity.
Qed.

Lemma stops_close q rest : optQuote q -> stops (q ++ ch ")" :: rest).
Proof.
  intros [->|(c & -> & Hc)] d t' E; injection E as <- _;
    [reflexivity|apply quoteChar_not_urlChar; assumption].
Qed.

(** The pattern has one result on a string of the shape, and the capture
    is the path. *)
Lemma run_stylePathRegex open body close rest :
  optQuote open -> optQuote close -> body <> [] -> forallb urlChar body = true ->
  run stylePathRegex (cssUrl open body close ++ rest) = [(rest, Some body)].
Proof.
  intros Ho Hc Hne Hb. unfold stylePathRegex, cssUrl, Lit.
  replace ((js "url(" ++ open ++ body ++ close ++ js ")") ++ rest)
    with (js "url(" ++ open ++ body ++ close ++ ch ")" :: rest)
    by (rewrite <- !app_assoc; reflexivity).
  rewrite (run_Cat_one _ _ _ (open ++ body ++ close ++ ch ")" :: rest) None)
    by apply run_literal.
  rewrite map_orElse_None.
  assert (Hbody : run (Cat (Group (PlusLazy (Class urlChar)))
                           (Cat (Opt (Class quoteChar)) (Chr ")")))
                      (body ++ close ++ ch ")" :: rest) = [(rest, Some body)]).
  { rewrite run_body; try assumption.
    - rewrite run_close by assumption. reflexivity.
    - apply stops_close. assumption.
    - apply run_close_reject. }
  destruct Ho as [->|(q & -> & Hq)].
  - destruct body as [|b body]; [congruence|].
    cbn [forallb] in Hb. apply andb_true_iff in Hb as [Hb0 Hb].
    rewrite (run_Cat_one _ _ _ ((b :: body) ++ close ++ ch ")" :: rest) None).
    + rewrite map_orElse_None. exact Hbody.
    + apply urlChar_true in Hb0 as [Hb0 _]. cbn [run Opt app]. rewrite Hb0. reflexivity.
  - change (run (Cat (Opt (Class quoteChar))
                  (Cat (Group (PlusLazy (Class urlChar)))
                       (Cat (Opt (Class quoteChar)) (Chr ")"))))
                ([q] ++ body ++ close ++ ch ")" :: rest))
      with (flat_map (fun p : result =>
              map (fun r : result => (fst r, orElse (snd r) (snd p)))
                  (run (Cat (Group (PlusLazy (Class urlChar)))
                            (Cat (Opt (Class quoteChar)) (Chr ")"))) (fst p)))
            ((if quoteChar q then [(body ++ close ++ ch ")" :: rest, None)] else [])
             ++ [(q :: body ++ close ++ ch ")" :: rest, None)])).
    rewrite Hq. cbn [app flat_map fst snd]. rewrite Hbody.
    rewrite run_body_fail; [reflexivity|].
    intros d t' E. injection E as <- _. apply quoteChar_not_urlChar. assumption.
Qed.

(** Conversely, a result of the pattern reveals the shape. *)
Lemma run_stylePathRegex_inv s p l :
  run stylePathRegex s = p :: l ->
  exists open body close,
    optQuote open /\ optQuote close /\ body <> [] /\ forallb urlChar body = true
    /\ s = cssUrl open body close ++ fst p.
Proof.
  intros H.
  assert (M : matches stylePathRegex s (fst p))
    by (unfold matches; rewrite H; left; reflexivity).
  unfold stylePathRegex, Lit in M.
  apply matches_Cat in M as (s1 & M1 & M). apply matches_literal in M1 as ->.
  apply matches_Cat in M as (s2 & M2 & M).
  apply matches_Cat in M as (s3 & M3 & M).
  rewrite matches_Group in M3. unfold PlusLazy in M3.
  apply matches_Cat in M3 as (x & Mb & Mw).
  apply matches_Class in Mb as (b & -> & Hb).
  apply matches_Star_Class in Mw as (w & -> & Hw).
  apply matches_Cat in M as (s4 & M4 & M). unfold Chr in M.
  apply matches_Class in M as (d & -> & Hd). apply N.eqb_eq in Hd as <-.
  assert (Hopt : forall u v, matches (Opt (Class quoteChar)) u v ->
                             exists q, optQuote q /\ u = q ++ v).
  { intros u v Hm. apply matches_Alt in Hm as [Hm|Hm].
    - apply matches_Class in Hm as (c & -> & Hc). exists [c]. split; [|reflexivity].
      right. eauto.
    - apply matches_Eps in Hm as ->. exists []. split; [left|]; reflexivity. }
  apply Hopt in M2 as (open & Ho & ->). apply Hopt in M4 as (close & Hc & ->).
  exists open, (b :: w), close. repeat split; try assumption; [discriminate| |].
  - cbn [forallb]. rewrite Hb, Hw. reflexivity.
  - unfold cssUrl. rewrite <- !app_assoc. reflexivity.
Qed.

(** ** exec and replace *)

Lemma exec_head r s rest cap l :
  run r s = (rest, cap) :: l ->
  exec r s = Some (mkMatched [] (firstn (length s - length rest) s) cap rest).
Proof. intros H. destruct s; cbn [exec]; rewrite H; reflexivity. Qed.

(** A match is found at the head of some suffix of the subject. *)
Lemma exec_Some r : forall s m,
  exec r s = Some m ->
  exists s0 l, s = before m ++ s0
               /\ run r s0 = (after m, group1 m) :: l
               /\ s0 = whole m ++ after m.
Proof.
  assert (Hhead : forall s rest cap l,
    run r s = (rest, cap) :: l -> s = firstn (length s - length rest) s ++ rest).
  { intros s rest cap l E.
    assert (In (rest, cap) (run r s)) as Hin by (rewrite E; left; reflexivity).
    apply run_suffix in Hin as (w & Hw). cbn [fst] in Hw.
    rewrite Hw, firstn_prefix. reflexivity. }
  induction s as [|c s IH]; intros m H; cbn [exec] in H.
  - destruct (run r []) as [|[rest cap] l] eqn:E; [discriminate|].
    injection H as <-. cbn [before whole after group1].
    exists [], l. split; [reflexivity|]. split; [exact E|].
    apply (Hhead _ _ _ _ E).
  - destruct (run r (c :: s)) as [|[rest cap] l] eqn:E.
    + destruct (exec r s) as [m'|] eqn:E'; [|discriminate].
      injection H as <-. cbn [before whole after group1].
      destruct (IH m' eq_refl) as (s0 & l & -> & Hr & Hs). exists s0, l. auto.
    + injection H as <-. cbn [before whole after group1].
      exists (c :: s), l. split; [reflexivity|]. split; [exact E|].
      apply (Hhead _ _ _ _ E).
Qed.

Lemma exec_length r s m :
  exec r s = Some m ->
  length s = length (before m) + length (whole m) + length (after m).
Proof.
  intros H. apply exec_Some in H as (s0 & l & -> & _ & ->).
  rewrite !length_app. lia.
Qed.

(** Fuel beyond the length of the subject changes nothing. *)
Lemma replaceLoop_fuel r f n : forall m s,
  length s < n -> length s < m -> replaceLoop r f n s = replaceLoop r f m s.
Proof.
  induction n as [|n IH]; intros m s Hn Hm; [lia|].
  destruct m as [|m]; [lia|]. cbn [replaceLoop].
  destruct (exec r s) as [x|] eqn:E; [|reflexivity].
  destruct (f (whole x)) as [out|]; [|reflexivity].
  apply exec_length in E.
  destruct (whole x) as [|c w] eqn:Ew.
  - destruct (after x) as [|d a] eqn:Ea; [reflexivity|].
    cbn [length] in E. rewrite (IH m a) by lia. reflexivity.
  - cbn [length] in E. rewrite (IH m (after x)) by lia. reflexivity.
Qed.

(** The first match is replaced, the text before it is kept, and the scan
    goes on behind it. *)
Lemma replace_exec r f s m out :
  exec r s = Some m -> whole m <> [] -> f (whole m) = Some out ->
  replace r f s
  = option_map (fun rest => before m ++ out ++ rest) (replace r f (after m)).
Proof.
  intros E Hne Hf. unfold replace. cbn [replaceLoop]. rewrite E, Hf.
  apply exec_length in E.
  destruct (whole m) as [|c w]; [congruence|]. cbn [length] in E.
  rewrite (replaceLoop_fuel r f (length s) (S (length (after m))) (after m)) by lia.
  reflexivity.
Qed.

(** The replacer succeeds on every match of the pattern, and follows the
    opening quote. *)
Lemma stylePathReplacer_match url open body close :
  optQuote open -> optQuote close -> body <> [] -> forallb urlChar body = true ->
  stylePathReplacer url (cssUrl open body close)
  = Some (cssUrl open (getAbsolutePath url body) open).
Proof.
  intros Ho Hc Hne Hb. unfold stylePathReplacer.
  pose proof (run_stylePathRegex open body close [] Ho Hc Hne Hb) as Hrun.
  rewrite app_nil_r in Hrun. rewrite (exec_head _ _ _ _ _ Hrun). cbn [group1].
  destruct body as [|b body]; [congruence|].
  cbn [forallb] in Hb. apply andb_true_iff in Hb as [Hb0 _].
  apply urlChar_true in Hb0 as [Hb0 _]. unfold quoteChar in Hb0.
  apply orb_false_iff in Hb0 as [Hs Hd].
  destruct Ho as [->|(q & -> & Hq)].
  - unfold cssUrl at 1 2. cbn [app js map list_ascii_of_string startsWith].
    rewrite !N.eqb_refl. cbn [andb].
    rewrite (N.eqb_sym dquote), Hd, (N.eqb_sym squote), Hs. reflexivity.
  - apply quoteChar_true in Hq as [->| ->]; reflexivity.
Qed.

(** ** Claims about style rewriting *)

Lemma stylePathReplacer_total url s m :
  exec stylePathRegex s = Some m ->
  exists out, stylePathReplacer url (whole m) = Some out.
Proof.
  intros H. apply exec_Some in H as (s0 & l & _ & Hrun & Hs0).
  apply run_stylePathRegex_inv in Hrun as (open & body & close & Ho & Hc & Hne & Hb & E).
  cbn [fst] in E. rewrite Hs0 in E. apply app_inv_tail in E. rewrite E.
  eexists. apply stylePathReplacer_match; assumption.
Qed.

Lemma replaceLoop_total r f n :
  (forall s m, exec r s = Some m -> exists out, f (whole m) = Some out) ->
  forall s, exists out, replaceLoop r f n s = Some out.
Proof.
  intros Hf. induction n as [|n IH]; intros s; cbn [replaceLoop]; [eauto|].
  destruct (exec r s) as [m|] eqn:E; [|eauto].
  destruct (Hf s m E) as (out & ->).
  destruct (whole m) as [|c w].
  - destruct (after m) as [|d a]; [eauto|].
    destruct (IH a) as (rest & ->). cbn. eauto.
  - destruct (IH (after m)) as (rest & ->). cbn. eauto.
Qed.

(** C4.  Rewriting never throws.  [getAbsolutePath] is a total function of
    the model, and returns its argument when none of the three patterns
    matches; the replacer succeeds on every match the style pattern finds
    in any text, and so style rewriting returns a string for every text. *)
Theorem rewriting_total (url : URL) :
  (forall path,
     test rootPathRegex path = false ->
     test currentPathRegex path = false ->
     test parentPathRegex path = false ->
     getAbsolutePath url path = path)
  /\ (forall css m, exec stylePathRegex css = Some m ->
        exists out, stylePathReplacer url (whole m) = Some out)
  /\ (forall css, exists out, rewriteStyle url css = Some out).
Proof.
  split; [apply unmatched_unchanged|]. split; [apply stylePathReplacer_total|].
  intros css. apply replaceLoop_total. apply stylePathReplacer_total.
Qed.

Lemma rewriting_total_example :
  getAbsolutePath page (js "//cdn.x/a.js") = js "//cdn.x/a.js"
  /\ exists out, stylePathReplacer page (js "url(a.png)") = Some out.
Proof.
  split.
  - apply (proj1 (rewriting_total page)); vm_compute; reflexivity.
  - apply (proj1 (proj2 (rewriting_total page)) (js "color: red; url(a.png)")
                 (mkMatched (js "color: red; ") (js "url(a.png)") (Some (js "a.png")) [])).
    vm_compute. reflexivity.
Defined.

(** C5.  A match written with double quotes, with single quotes or without
    quotes is replaced by the absolutized path in the same quoting: by the
    replacer, and in the rewritten text, where the first match of any text
    is replaced in place and the rewriting goes on behind it. *)
Theorem style_quoting_preserved (url : URL) (q body : str)
  (Hq : q = [] \/ q = [squote] \/ q = [dquote])
  (Hne : body <> []) (Hbody : forallb urlChar body = true) :
  stylePathReplacer url (cssUrl q body q)
    = Some (cssUrl q (getAbsolutePath url body) q)
  /\ forall css m,
       exec stylePathRegex css = Some m -> whole m = cssUrl q body q ->
       css = before m ++ cssUrl q body q ++ after m
       /\ rewriteStyle url css
          = option_map
              (fun rest => before m ++ cssUrl q (getAbsolutePath url body) q ++ rest)
              (rewriteStyle url (after m)).
Proof.
  assert (Ho : optQuote q).
  { destruct Hq as [->|[->| ->]]; [left; reflexivity|right|right];
      eexists; split; reflexivity. }
  pose proof (stylePathReplacer_match url q body q Ho Ho Hne Hbody) as Hf.
  split; [exact Hf|]. intros css m E Hm. split.
  - apply exec_Some in E as (s0 & l & -> & _ & ->). rewrite Hm. reflexivity.
  - rewrite <- Hm in Hf. apply (replace_exec _ _ _ _ _ E); [|exact Hf].
    rewrite Hm. unfold cssUrl. discriminate.
Qed.

Lemma style_quoting_examples :
  rewriteStyle (topLevel []) (js "url('a.png')") = Some (js "url('https://h/a.png')")
  /\ rewriteStyle (topLevel []) (js "color: red; background: url(a.png) no-repeat")
     = Some (js "color: red; background: url(https://h/a.png) no-repeat").
Proof.
  split.
  - etransitivity.
    + apply (proj2 (style_quoting_preserved (topLevel []) [squote] (js "a.png")
                      (or_intror (or_introl eq_refl)) ltac:(discriminate) eq_refl)
                   (js "url('a.png')")
                   (mkMatched [] (js "url('a.png')") (Some (js "a.png")) []));
        vm_compute; reflexivity.
    + vm_compute. reflexivity.
  - etransitivity.
    + apply (proj2 (style_quoting_preserved (topLevel []) [] (js "a.png")
                      (or_introl eq_refl) ltac:(discriminate) eq_refl)
                   (js "color: red; background: url(a.png) no-repeat")
                   (mkMatched (js "color: red; background: ") (js "url(a.png)")
                              (Some (js "a.png")) (js " no-repeat")));
        vm_compute; reflexivity.
    + vm_compute. reflexivity.
Defined.

(** ** Claims about srcset rewriting *)

Lemma join_cons_char sep c x l : join sep ((c :: x) :: l) = c :: join sep (x :: l).
Proof. destruct l; reflexivity. Qed.

Lemma join_split sep s : join [sep] (split sep s) = s.
Proof.
  induction s as [|c s IH]; [reflexivity|]. cbn [split].
  destruct (N.eqb_spec c sep) as [->|Hc].
  - rewrite join_cons by apply split_not_nil. rewrite IH. reflexivity.
  - destruct (split sep s) as [|seg segs] eqn:E; [destruct (split_not_nil _ _ E)|].
    rewrite join_cons_char, IH. reflexivity.
Qed.

Lemma split_head_without sep : forall s tok rest,
  split sep s = tok :: rest -> without sep tok.
Proof.
  unfold without. induction s as [|c s IH]; intros tok rest; cbn [split].
  - intros E. injection E as <- _. reflexivity.
  - destruct (N.eqb c sep) eqn:Hc.
    + intros E. injection E as <- _. reflexivity.
    + destruct (split sep s) as [|seg segs] eqn:E'.
      * intros E. injection E as <- _. cbn. rewrite Hc. reflexivity.
      * intros E. injection E as <- _. cbn. rewrite Hc. cbn.
        apply (IH seg segs eq_refl).
Qed.

Lemma split_without sep s : without sep s -> split sep s = [s].
Proof.
  unfold without. induction s as [|c s IH]; [reflexivity|]. cbn [forallb split].
  intros H. apply andb_true_iff in H as [Hc H]. apply negb_true_iff in Hc.
  rewrite Hc, (IH H). reflexivity.
Qed.

Lemma trimLeft_spec s :
  exists ws, s = ws ++ trimLeft s /\ forallb isWhiteSpace ws = true
             /\ forall c t, trimLeft s = c :: t -> isWhiteSpace c = false.
Proof.
  induction s as [|c s (ws & E & Hws & Hstop)].
  - exists []. repeat split. discriminate.
  - cbn [trimLeft]. destruct (isWhiteSpace c) eqn:Hc.
    + exists (c :: ws). cbn [app forallb]. rewrite Hc, Hws, <- E. auto.
    + exists []. repeat split. intros d t H. injection H as <- _. exact Hc.
Qed.

Lemma rewriteCandidate_parts url cand :
  exists ws path descriptor,
    cand = ws ++ path ++ descriptor
    /\ forallb isWhiteSpace ws = true
    /\ (forall c t, path ++ descriptor = c :: t -> isWhiteSpace c = false)
    /\ without (ch " ") path
    /\ (descriptor = [] \/ exists d, descriptor = ch " " :: d)
    /\ rewriteCandidate url cand = getAbsolutePath url path ++ descriptor.
Proof.
  destruct (trimLeft_spec cand) as (ws & Ecand & Hws & Hstop).
  unfold rewriteCandidate.
  pose proof (join_split (ch " ") (trimLeft cand)) as Ejoin.
  destruct (split (ch " ") (trimLeft cand)) as [|tok rest] eqn:E;
    [destruct (split_not_nil _ _ E)|].
  exists ws, tok,
    (match rest with [] => [] | _ :: _ => js " " ++ join (js " ") rest end).
  assert (Esrc : trimLeft cand
     = tok ++ match rest with [] => [] | _ :: _ => js " " ++ join (js " ") rest end).
  { rewrite <- Ejoin. destruct rest; [symmetry; apply app_nil_r|reflexivity]. }
  split; [rewrite <- Esrc; exact Ecand|]. split; [exact Hws|].
  split; [rewrite <- Esrc; exact Hstop|].
  split; [exact (split_head_without _ _ _ _ E)|].
  split; [destruct rest; [left; reflexivity|right; eexists; reflexivity]|].
  cbn [hd]. change (<[0:=getAbsolutePath url tok]> (tok :: rest))
    with (getAbsolutePath url tok :: rest).
  destruct rest; [symmetry; apply app_nil_r|reflexivity].
Qed.

(** C6.  The [srcset] value is split on commas and the rewritten
    candidates are joined with commas; a candidate loses its leading
    whitespace, its path (up to the first space) is absolutized and the
    descriptor behind it is kept as it is.  On the specification's example
    each path is resolved against the directory of the document, and for a
    document at the top level of the host [h] the result is the one the
    specification gives. *)
Theorem srcset_rewriting (url : URL) :
  (forall srcset,
     rewriteSrcset url srcset
     = join (js ",") (map (rewriteCandidate url) (split (ch ",") srcset)))
  /\ (forall cand, exists ws path descriptor,
        cand = ws ++ path ++ descriptor
        /\ forallb isWhiteSpace ws = true
        /\ (forall c t, path ++ descriptor = c :: t -> isWhiteSpace c = false)
        /\ without (ch " ") path
        /\ (descriptor = [] \/ exists d, descriptor = ch " " :: d)
        /\ rewriteCandidate url cand = getAbsolutePath url path ++ descriptor)
  /\ (forall rest, pathname url = ch "/" :: rest ->
        let dir := join (js "/") (removelast (split (ch "/") (pathname url))) in
        rewriteSrcset url (js "a.png 1x, b.png 2x")
        = (js "https://" ++ host url ++ dir ++ js "/a.png" ++ js " 1x") ++ js "," ++
          (js "https://" ++ host url ++ dir ++ js "/b.png" ++ js " 2x"))
  /\ (forall file, without (ch "/") file ->
        rewriteSrcset (topLevel file) (js "a.png 1x, b.png 2x")
        = js "https://h/a.png 1x,https://h/b.png 2x").
Proof.
  assert (Hdir : forall u rest p, pathname u = ch "/" :: rest ->
    test currentPathRegex p = true -> without (ch "/") p ->
    getAbsolutePath u p
    = js "https://" ++ host u ++
      join (js "/") (removelast (split (ch "/") (pathname u))) ++ js "/" ++ p).
  { intros u rest p Hpath Hcur Hp. rewrite getAbsolutePath_current by assumption.
    rewrite (split_without _ _ Hp), join_snoc; [reflexivity|].
    rewrite Hpath.
    change (split (ch "/") (ch "/" :: rest)) with ([] :: split (ch "/") rest).
    rewrite removelast_cons by apply split_not_nil. discriminate. }
  assert (Hex : forall u rest, pathname u = ch "/" :: rest ->
    rewriteSrcset u (js "a.png 1x, b.png 2x")
    = (js "https://" ++ host u ++
       join (js "/") (removelast (split (ch "/") (pathname u))) ++ js "/a.png" ++ js " 1x")
      ++ js "," ++
      (js "https://" ++ host u ++
       join (js "/") (removelast (split (ch "/") (pathname u))) ++ js "/b.png" ++ js " 2x")).
  { intros u rest Hpath.
    change (rewriteSrcset u (js "a.png 1x, b.png 2x"))
      with ((getAbsolutePath u (js "a.png") ++ js " " ++ js "1x")
            ++ js "," ++
            (getAbsolutePath u (js "b.png") ++ js " " ++ js "2x")).
    rewrite !(Hdir u rest) by (assumption || (vm_compute; reflexivity)).
    rewrite <- !app_assoc. reflexivity. }
  split; [reflexivity|]. split; [apply rewriteCandidate_parts|].
  split; [intros rest Hpath; apply (Hex url rest Hpath)|].
  intros file Hfile. rewrite (Hex (topLevel file) file eq_refl).
  cbn [topLevel host pathname].
  change (split (ch "/") (ch "/" :: file)) with ([] :: split (ch "/") file).
  rewrite (split_without _ _ Hfile). reflexivity.
Qed.

Lemma srcset_example :
  rewriteSrcset (topLevel (js "index.html")) (js "a.png 1x, b.png 2x")
  = js "https://h/a.png 1x,https://h/b.png 2x".
Proof.
  apply (proj2 (proj2 (proj2 (srcset_rewriting (topLevel (js "index.html")))))).
  vm_compute. reflexivity.
Defined.

(** ** Claims about the request handler *)

(** C7 (fails on the code).  On a cache miss, when the outbound request
    fails, the handler does not answer 406 with the error: the callback of
    [requestHTML] throws the error where the [try] of [getHTML] does not
    catch it, so no response is sent at all.  One request has been issued
    and the cache has not been written. *)
Theorem fetch_failure_uncaught {Body Dom Err Headers : Type}
  (request : str -> Headers -> Completion) (decode : Body -> Err + str)
  (parse : str -> Dom)
  (changeAssetsURL : str -> Dom -> Err + Dom) (serialize : Dom -> str)
  (href : str) (headers : Headers) (w : World) (error : Err)
  (Hmiss : isCached href (memory w) = false)
  (Hfail : request href headers = Failed error) :
  getHTML request decode parse changeAssetsURL serialize href headers w
    = (Uncaught error, mkWorld (memory w) (outbound w ++ [href]))
  /\ fst (getHTML request decode parse changeAssetsURL serialize href headers w)
     <> Json 406 error.
Proof.
  assert (E : getHTML request decode parse changeAssetsURL serialize href headers w
              = (Uncaught error, mkWorld (memory w) (outbound w ++ [href]))).
  { unfold getHTML, requestHTML. rewrite Hmiss, Hfail. reflexivity. }
  split; [exact E|]. rewrite E. discriminate.
Qed.

Lemma fetch_failure_uncaught_example :
  getHTML (Dom := str)
          (fun (_ : str) (_ : unit) => Failed (Body := str) (js "ECONNREFUSED"))
          (fun body : str => inr body) (fun text => text)
          (fun _ html => inr html) (fun html => html)
          (js "http://example.com/") tt (mkWorld (∅ : gmap str str) [])
  = (Uncaught (js "ECONNREFUSED"),
     mkWorld (∅ : gmap str str) [js "http://example.com/"]).
Proof.
  refine (proj1 (fetch_failure_uncaught
                   (fun (_ : str) (_ : unit) => Failed (Body := str) (js "ECONNREFUSED"))
                   (fun body : str => inr body) (fun text => text)
                   (fun _ html => inr html) (fun html => html)
                   (js "http://example.com/") tt (mkWorld (∅ : gmap str str) [])
                   (js "ECONNREFUSED") _ _)).
  - reflexivity.
  - reflexivity.
Defined.

(** ** More about getAbsolutePath *)

Lemma scan_double_slash a b inSeg :
  scan inSeg (a ++ ch "/" :: ch "/" :: b) = false.
Proof.
  revert inSeg. induction a as [|c a IH]; intros inSeg.
  - change (scan inSeg ([] ++ ch "/" :: ch "/" :: b)) with (inSeg && false).
    apply andb_false_r.
  - cbn [app scan]. destruct (pathChar c); [apply IH|].
    destruct (N.eqb c (ch "/")); [|reflexivity].
    rewrite IH. apply andb_false_r.
Qed.

Lemma scan_chars inSeg s :
  scan inSeg s = true ->
  forallb (fun c => pathChar c || N.eqb c (ch "/")) s = true.
Proof.
  revert inSeg. induction s as [|c s IH]; intros inSeg; [reflexivity|].
  cbn [scan forallb]. destruct (pathChar c); [apply IH|].
  destruct (N.eqb c (ch "/")); [|discriminate].
  intros H. apply andb_true_iff in H as [_ H]. apply (IH _ H).
Qed.

Lemma isParent_false s : isCurrent s = false -> isParent s = false.
Proof.
  intros H. destruct (isParent s) eqn:E; [|reflexivity].
  apply isParent_current in E. congruence.
Qed.

(** X1.  A raw path with two slashes in a row anywhere in it (an absolute
    URL with a scheme, a protocol-relative [//host/...]) is returned
    unchanged. *)
Theorem double_slash_unchanged (url : URL) (a b : str) :
  getAbsolutePath url (a ++ js "//" ++ b) = a ++ js "//" ++ b.
Proof.
  change (a ++ js "//" ++ b) with (a ++ ch "/" :: ch "/" :: b).
  assert (Hc : isCurrent (a ++ ch "/" :: ch "/" :: b) = false).
  { unfold isCurrent. rewrite scan_double_slash. apply andb_false_r. }
  assert (Hr : isRoot (a ++ ch "/" :: ch "/" :: b) = false).
  { destruct a as [|c a].
    - reflexivity.
    - cbn [app isRoot]. rewrite scan_double_slash. apply andb_false_r. }
  rewrite getAbsolutePath_cases, Hr, Hc, (isParent_false _ Hc). reflexivity.
Qed.

(** X2.  A raw path that holds a code unit outside the character class
    other than [/] (a space, a quote mark, a brace, any code unit above
    [~]) is returned unchanged. *)
Theorem foreign_character_unchanged (url : URL) (p : str) (c : N)
  (Hin : In c p) (Hclass : pathChar c = false) (Hslash : c <> ch "/") :
  getAbsolutePath url p = p.
Proof.
  assert (Hscan : forall inSeg s, In c s -> scan inSeg s = false).
  { intros inSeg s Hs. destruct (scan inSeg s) eqn:E; [|reflexivity].
    apply scan_chars in E. rewrite forallb_forall in E.
    specialize (E c Hs). rewrite Hclass in E. cbn [orb] in E.
    apply N.eqb_eq in E. congruence. }
  assert (Hc : isCurrent p = false).
  { unfold isCurrent. rewrite (Hscan _ _ Hin). apply andb_false_r. }
  assert (Hr : isRoot p = false).
  { destruct p as [|d t]; [reflexivity|]. cbn [isRoot].
    destruct (N.eqb_spec d (ch "/")) as [->|]; [|reflexivity].
    destruct Hin as [Hd|Hin]; [congruence|]. apply (Hscan _ _ Hin). }
  rewrite getAbsolutePath_cases, Hr, Hc, (isParent_false _ Hc). reflexivity.
Qed.

Lemma foreign_character_example :
  getAbsolutePath page (js "my file.png") = js "my file.png".
Proof.
  apply (foreign_character_unchanged page (js "my file.png") (ch " ")).
  - vm_compute. tauto.
  - reflexivity.
  - discriminate.
Defined.

(** X3.  The parent-relative branch is unreachable: every raw path the
    parent pattern matches is also matched by the current pattern, and the
    result is the current-relative one, with the [..] segment kept behind
    the directory of the target. *)
Theorem parent_pattern_shadowed (url : URL) (path : str)
  (Hparent : test parentPathRegex path = true) :
  test currentPathRegex path = true
  /\ getAbsolutePath url path
     = js "https://" ++ host url ++
       join (js "/") (removelast (split (ch "/") (pathname url))
                      ++ split (ch "/") path).
Proof.
  split; [|apply parent_branch_dead; assumption].
  rewrite test_currentPathRegex. apply isParent_current.
  rewrite <- test_parentPathRegex. assumption.
Qed.

Lemma parent_pattern_shadowed_example :
  getAbsolutePath subpage (js "../../x.css")
  = js "https://example.com/dir/sub/../../x.css".
Proof.
  etransitivity.
  - apply (proj2 (parent_pattern_shadowed subpage (js "../../x.css") eq_refl)).
  - vm_compute. reflexivity.
Defined.

(** X4.  A path the root pattern matches is matched by neither of the other
    two patterns, and the result is the host followed by the path, whatever
    the path of the target. *)
Theorem root_pattern_exclusive (url : URL) (path : str)
  (Hroot : test rootPathRegex path = true) :
  test currentPathRegex path = false
  /\ test parentPathRegex path = false
  /\ getAbsolutePath url path = js "https://" ++ host url ++ path.
Proof.
  rewrite test_rootPathRegex in Hroot.
  rewrite test_currentPathRegex, test_parentPathRegex.
  split; [apply isRoot_not_current; assumption|].
  split; [apply isRoot_not_parent; assumption|].
  rewrite getAbsolutePath_cases, Hroot. reflexivity.
Qed.

Lemma root_pattern_exclusive_example :
  test currentPathRegex (js "/a/b.png") = false
  /\ getAbsolutePath subpage (js "/a/b.png") = js "https://example.com/a/b.png".
Proof.
  pose proof (root_pattern_exclusive subpage (js "/a/b.png") eq_refl) as H.
  split; [exact (proj1 H)|exact (proj2 (proj2 H))].
Defined.

(** ** parseTargetURL and the sanitizer *)

Lemma split_app_sep sep a b :
  without sep a -> split sep (a ++ sep :: b) = a :: split sep b.
Proof.
  unfold without. induction a as [|c a IH]; intros H.
  - cbn [app split]. rewrite N.eqb_refl. reflexivity.
  - cbn [forallb] in H. apply andb_true_iff in H as [Hc H].
    apply negb_true_iff in Hc. cbn [app split]. rewrite Hc, (IH H). reflexivity.
Qed.

Lemma split_in_without sep : forall s x, In x (split sep s) -> without sep x.
Proof.
  unfold without. induction s as [|c s IH]; intros x; cbn [split].
  - intros [<-|[]]. reflexivity.
  - destruct (N.eqb c sep) eqn:Hc.
    + intros [<-|H]; [reflexivity|auto].
    + destruct (split sep s) as [|seg segs] eqn:E.
      * intros [<-|[]]. cbn. rewrite Hc. reflexivity.
      * intros [<-|H].
        -- cbn. rewrite Hc. cbn. apply IH. left. reflexivity.
        -- apply IH. right. assumption.
Qed.

(** A text followed by nothing or by a separator: its first piece. *)
Lemma split_first sep q tail :
  without sep q -> (tail = [] \/ exists t, tail = sep :: t) ->
  exists rest, split sep (q ++ tail) = q :: rest.
Proof.
  intros Hq [->|(t & ->)].
  - rewrite app_nil_r, (split_without _ _ Hq). eauto.
  - rewrite (split_app_sep _ _ _ Hq). eauto.
Qed.

(** X5.  The URL [parseTargetURL] builds has at most one question mark: it
    is a base without one, alone or followed by [?] and a query without
    one. *)
Theorem parseTargetURL_one_query (sanitizedURL originalURL : str) :
  exists baseURL,
    without (ch "?") baseURL
    /\ (parseTargetURL sanitizedURL originalURL = baseURL
        \/ exists query,
             without (ch "?") query
             /\ parseTargetURL sanitizedURL originalURL
                = baseURL ++ js "?" ++ query).
Proof.
  unfold parseTargetURL.
  exists (hd [] (split (ch "?") sanitizedURL)). split.
  - destruct (split (ch "?") sanitizedURL) as [|x l] eqn:E;
      [destruct (split_not_nil _ _ E)|].
    apply (split_in_without (ch "?") sanitizedURL). rewrite E. left. reflexivity.
  - destruct (nth_error (split (ch "?") originalURL) 1) as [q|] eqn:E;
      [right|left; reflexivity].
    exists q. split; [|reflexivity].
    apply (split_in_without (ch "?") originalURL). apply (nth_error_In _ _ E).
Qed.

(** X6.  The base comes from the sanitized URL and the query from the
    original one: the query of the sanitized URL is dropped, the query of
    the original URL is its text between the first [?] and the next one,
    and without a [?] in the original URL the result is the base alone. *)
Theorem parseTargetURL_parts (base squery path query tail : str)
  (Hbase : without (ch "?") base)
  (Hsquery : squery = [] \/ exists t, squery = ch "?" :: t)
  (Hpath : without (ch "?") path)
  (Hquery : without (ch "?") query)
  (Htail : tail = [] \/ exists t, tail = ch "?" :: t) :
  parseTargetURL (base ++ squery) (path ++ js "?" ++ query ++ tail)
    = base ++ js "?" ++ query
  /\ parseTargetURL (base ++ squery) path = base.
Proof.
  unfold parseTargetURL.
  destruct (split_first (ch "?") base squery Hbase Hsquery) as (r1 & ->).
  cbn [hd]. split.
  - change (path ++ js "?" ++ query ++ tail) with (path ++ ch "?" :: query ++ tail).
    rewrite (split_app_sep _ _ _ Hpath).
    destruct (split_first (ch "?") query tail Hquery Htail) as (r2 & ->).
    reflexivity.
  - rewrite (split_without _ _ Hpath). reflexivity.
Qed.

Lemma parseTargetURL_example :
  parseTargetURL (js "http://a.com/x?y=1") (js "http://a.com/x?q=2&r=3?z")
  = js "http://a.com/x?q=2&r=3".
Proof.
  apply (proj1 (parseTargetURL_parts (js "http://a.com/x") (js "?y=1")
                  (js "http://a.com/x") (js "q=2&r=3") (js "?z")
                  eq_refl (or_intror (ex_intro _ (js "y=1") eq_refl))
                  eq_refl eq_refl (or_intror (ex_intro _ (js "z") eq_refl)))).
Defined.

(** X7.  The URL handed to [UniformURL.uniform] always starts with [http];
    adding the default protocol twice is adding it once; and a name that
    itself starts with [http] gets no protocol. *)
Theorem withProtocol_http (url rest : str) :
  startsWith (withProtocol url) (js "http") = true
  /\ withProtocol (withProtocol url) = withProtocol url
  /\ withProtocol (js "http" ++ rest) = js "http" ++ rest.
Proof.
  assert (H1 : startsWith (withProtocol url) (js "http") = true).
  { unfold withProtocol. destruct (startsWith url (js "http")) eqn:E; [exact E|].
    reflexivity. }
  split; [exact H1|]. split; [|reflexivity].
  unfold withProtocol at 1. rewrite H1. reflexivity.
Qed.

(** ** More about exec and replace *)

Lemma replace_none r f s : exec r s = None -> replace r f s = Some s.
Proof. intros E. unfold replace. cbn [replaceLoop]. rewrite E. reflexivity. Qed.

(** Where the pattern does not match, the code unit is copied. *)
Lemma replace_skip r f c s :
  run r (c :: s) = [] ->
  replace r f (c :: s) = option_map (cons c) (replace r f s).
Proof.
  intros Hrun. unfold replace. cbn [length].
  change (replaceLoop r f (S (S (length s))) (c :: s))
    with (match exec r (c :: s) with
          | None => Some (c :: s)
          | Some m =>
              match f (whole m) with
              | None => None
              | Some out =>
                  match whole m, after m with
                  | [], [] => Some (before m ++ out)
                  | [], d :: a =>
                      option_map (fun rest => before m ++ out ++ d :: rest)
                                 (replaceLoop r f (S (length s)) a)
                  | _ :: _, a =>
                      option_map (fun rest => before m ++ out ++ rest)
                                 (replaceLoop r f (S (length s)) a)
                  end
              end
          end).
  cbn [exec]. rewrite Hrun.
  assert (Hrhs : replaceLoop r f (S (length s)) s
    = match exec r s with
      | None => Some s
      | Some m =>
          match f (whole m) with
          | None => None
          | Some out =>
              match whole m, after m with
              | [], [] => Some (before m ++ out)
              | [], d :: a =>
                  option_map (fun rest => before m ++ out ++ d :: rest)
                             (replaceLoop r f (length s) a)
              | _ :: _, a =>
                  option_map (fun rest => before m ++ out ++ rest)
                             (replaceLoop r f (length s) a)
              end
          end
      end) by reflexivity.
  rewrite Hrhs. clear Hrhs.
  destruct (exec r s) as [m|] eqn:E; [|reflexivity].
  cbn [option_map whole after before].
  destruct (f (whole m)) as [out|]; [|reflexivity].
  apply exec_length in E.
  destruct (whole m) as [|x w].
  - destruct (after m) as [|d a]; [reflexivity|]. cbn [length] in E.
    rewrite (replaceLoop_fuel r f (S (length s)) (length s) a) by lia.
    destruct (replaceLoop r f (length s) a); reflexivity.
  - cbn [length] in E.
    rewrite (replaceLoop_fuel r f (S (length s)) (length s) (after m)) by lia.
    destruct (replaceLoop r f (length s) (after m)); reflexivity.
Qed.

(** A match somewhere in the text is found. *)
Lemma exec_found r pre : forall s0 p l,
  run r s0 = p :: l -> exists m, exec r (pre ++ s0) = Some m.
Proof.
  induction pre as [|c pre IH]; intros s0 [rest cap] l H.
  - cbn [app]. rewrite (exec_head _ _ _ _ _ H). eauto.
  - cbn [app exec]. destruct (run r (c :: pre ++ s0)) as [|[rest' cap'] l']; [|eauto].
    destruct (IH _ _ _ H) as (m & ->). cbn. eauto.
Qed.

Lemma run_Group_Lit w t : run (Group (Lit w)) (js w ++ t) = [(t, Some (js w))].
Proof.
  cbn [run]. unfold Lit. rewrite run_literal. cbn [map fst].
  rewrite firstn_prefix. reflexivity.
Qed.

Lemma run_Group_Lit_fail w s :
  startsWith s (js w) = false -> run (Group (Lit w)) s = [].
Proof.
  rewrite <- test_Lit. unfold test. cbn [run].
  destruct (run (Lit w) s); [reflexivity|discriminate].
Qed.

(** ** The upgrade to https *)

Lemma upgradeHttp_match t :
  upgradeHttp (js "http://" ++ t) = option_map (app (js "https://")) (upgradeHttp t).
Proof.
  unfold upgradeHttp, httpRegex.
  pose proof (exec_head _ _ _ _ _ (run_Group_Lit "http://" t)) as E.
  rewrite firstn_prefix in E.
  rewrite (replace_exec _ _ _ _ (js "https://") E); [reflexivity|discriminate|reflexivity].
Qed.

Lemma upgradeHttp_skip c s :
  startsWith (c :: s) (js "http://") = false ->
  upgradeHttp (c :: s) = option_map (cons c) (upgradeHttp s).
Proof.
  intros H. unfold upgradeHttp, httpRegex. apply replace_skip.
  apply run_Group_Lit_fail. assumption.
Qed.

Lemma upgradeHttp_shape (s : str) :
  s = [] \/ (exists t, s = js "http://" ++ t)
  \/ exists c s', s = c :: s' /\ startsWith s (js "http://") = false.
Proof.
  destruct (startsWith s (js "http://")) eqn:E.
  - right. left. apply startsWith_true in E. exact E.
  - destruct s as [|c s']; [left; reflexivity|]. right. right. eauto.
Qed.

(** The output has no [http://], and starts with a text without [h]
    exactly when the input does. *)
Lemma upgradeHttp_invariant n : forall s,
  length s <= n ->
  exists out,
    upgradeHttp s = Some out
    /\ includes out (js "http://") = false
    /\ forall u, forallb (fun c => negb (N.eqb c (ch "h"))) u = true ->
                 startsWith out u = startsWith s u.
Proof.
  induction n as [|n IH]; intros s Hn.
  - destruct s; [|cbn [length] in Hn; lia]. exists []. repeat split.
  - destruct (upgradeHttp_shape s) as [->|[(t & ->)|(c & s' & -> & Hs)]].
    + exists []. repeat split.
    + rewrite length_app in Hn. cbn [js length map list_ascii_of_string] in Hn.
      destruct (IH t ltac:(lia)) as (out & E & Hout & _).
      exists (js "https://" ++ out). rewrite upgradeHttp_match, E.
      split; [reflexivity|]. split; [exact Hout|].
      intros [|d u] Hu; [reflexivity|].
      cbn [forallb] in Hu. apply andb_true_iff in Hu as [Hd _].
      apply negb_true_iff in Hd.
      change (startsWith (js "https://" ++ out) (d :: u))
        with (N.eqb d (ch "h") && startsWith (js "ttps://" ++ out) u).
      change (startsWith (js "http://" ++ t) (d :: u))
        with (N.eqb d (ch "h") && startsWith (js "ttp://" ++ t) u).
      rewrite Hd. reflexivity.
    + cbn [length] in Hn.
      destruct (IH s' ltac:(lia)) as (out & E & Hout & Hpre).
      exists (c :: out). rewrite (upgradeHttp_skip _ _ Hs), E.
      split; [reflexivity|]. split.
      * cbn [includes]. rewrite Hout, orb_false_r.
        change (startsWith (c :: out) (js "http://"))
          with (N.eqb (ch "h") c && startsWith out (js "ttp://")).
        rewrite (Hpre (js "ttp://") eq_refl). exact Hs.
      * intros [|d u] Hu; [reflexivity|].
        cbn [forallb] in Hu. apply andb_true_iff in Hu as [_ Hu].
        cbn [startsWith]. rewrite (Hpre u Hu). reflexivity.
Qed.

Lemma upgradeHttp_fixed : forall s,
  includes s (js "http://") = false -> upgradeHttp s = Some s.
Proof.
  induction s as [|c s IH]; intros H; [reflexivity|].
  cbn [includes] in H. apply orb_false_iff in H as [Hs H].
  rewrite (upgradeHttp_skip _ _ Hs), (IH H). reflexivity.
Qed.

(** X8.  The upgrade returns a text for every document, and no [http://]
    is left in it. *)
Theorem upgradeHttp_no_http (html : str) :
  exists out, upgradeHttp html = Some out /\ includes out (js "http://") = false.
Proof.
  destruct (upgradeHttp_invariant (length html) html (Nat.le_refl _))
    as (out & E & H & _).
  eauto.
Qed.

(** X9.  A document without [http://] is left as it is, and upgrading an
    upgraded document changes nothing. *)
Theorem upgradeHttp_idempotent (html : str) :
  (includes html (js "http://") = false -> upgradeHttp html = Some html)
  /\ forall out, upgradeHttp html = Some out -> upgradeHttp out = Some out.
Proof.
  split; [apply upgradeHttp_fixed|].
  intros out E.
  destruct (upgradeHttp_invariant (length html) html (Nat.le_refl _))
    as (out' & E' & H & _).
  rewrite E in E'. injection E' as <-. apply upgradeHttp_fixed. exact H.
Qed.

Lemma upgradeHttp_idempotent_example :
  upgradeHttp (js "<a href='https://a.b/c'>") = Some (js "<a href='https://a.b/c'>")
  /\ upgradeHttp (js "see https://a.b") = Some (js "see https://a.b").
Proof.
  split.
  - apply (proj1 (upgradeHttp_idempotent (js "<a href='https://a.b/c'>"))).
    vm_compute. reflexivity.
  - apply (proj2 (upgradeHttp_idempotent (js "see http://a.b"))).
    vm_compute. reflexivity.
Defined.

(** X10.  A value that starts with [http://] starts with [https://] after
    the upgrade, and [getAbsolutePath] then returns it unchanged: an
    absolute link of the page is upgraded and never host-qualified. *)
Theorem upgraded_link_unchanged (url : URL) (rest : str) :
  exists out,
    upgradeHttp (js "http://" ++ rest) = Some (js "https://" ++ out)
    /\ getAbsolutePath url (js "https://" ++ out) = js "https://" ++ out.
Proof.
  destruct (upgradeHttp_invariant (length rest) rest (Nat.le_refl _))
    as (out & E & _).
  exists out. rewrite upgradeHttp_match, E.
  split; [reflexivity|apply https_unchanged].
Qed.

(** ** The style values that are looked at *)

Lemma exec_stylePathRegex_url css m :
  exec stylePathRegex css = Some m -> testAnywhere styleURLRegex css = true.
Proof.
  intros H. apply exec_Some in H as (s0 & l & -> & Hrun & _).
  apply run_stylePathRegex_inv in Hrun as (open & body & close & _ & _ & _ & _ & ->).
  cbn [fst]. unfold testAnywhere, styleURLRegex, cssUrl. rewrite <- !app_assoc.
  destruct (exec_found _ (before m) _ _ _
              (run_Group_Lit "url(" (open ++ body ++ close ++ js ")" ++ after m)))
    as (m' & ->).
  reflexivity.
Qed.

(** X11.  The filter of [fetchAssetElements] loses nothing: a style value
    without [url(], which the filter drops, is one that the rewriting would
    return as it is. *)
Theorem dropped_style_unchanged (url : URL) (values : list str) (css : str)
  (Hin : In css values) (Hdropped : ~ In css (styleValues values)) :
  testAnywhere styleURLRegex css = false
  /\ rewriteStyle url css = Some css.
Proof.
  assert (Ht : testAnywhere styleURLRegex css = false).
  { destruct (testAnywhere styleURLRegex css) eqn:E; [|reflexivity].
    destruct Hdropped. apply filter_In. auto. }
  split; [exact Ht|]. apply replace_none.
  destruct (exec stylePathRegex css) as [m|] eqn:E; [|reflexivity].
  apply exec_stylePathRegex_url in E. congruence.
Qed.

Lemma dropped_style_example :
  rewriteStyle page (js "color: red") = Some (js "color: red").
Proof.
  apply (proj2 (dropped_style_unchanged page
                  [js "color: red"; js "background: url(a.png)"] (js "color: red")
                  (or_introl eq_refl)
                  ltac:(vm_compute; intros [H|[]]; discriminate))).
Defined.

(** ** More about the request handler *)

Lemma getHTML_hit {Body Dom Err Headers : Type}
  (request : str -> Headers -> Completion) (decode : Body -> Err + str)
  (parse : str -> Dom)
  (changeAssetsURL : str -> Dom -> Err + Dom) (serialize : Dom -> str)
  (href : str) (headers : Headers) (w : World) (html : Dom) :
  memory w !! href = Some html ->
  getHTML request decode parse changeAssetsURL serialize href headers w
  = (Send 200 (Some (serialize html)), w).
Proof.
  intros Hhit. unfold getHTML, isCached, getSerializedHTML. rewrite Hhit.
  rewrite bool_decide_true by eauto. reflexivity.
Qed.

(** X12.  On a cache hit the handler answers 200 with the serialized cached
    document, issues no request and leaves cache and log as they were,
    whatever the request would have given. *)
Theorem cache_hit {Body Dom Err Headers : Type}
  (request : str -> Headers -> Completion) (decode : Body -> Err + str)
  (parse : str -> Dom)
  (changeAssetsURL : str -> Dom -> Err + Dom) (serialize : Dom -> str)
  (href : str) (headers : Headers) (w : World) (html : Dom)
  (Hhit : memory w !! href = Some html) :
  getHTML request decode parse changeAssetsURL serialize href headers w
  = (Send 200 (Some (serialize html)), w).
Proof. apply getHTML_hit. exact Hhit. Qed.

Lemma cache_hit_example :
  getHTML (fun (_ : str) (_ : unit) => Failed (Body := str) (js "ECONNREFUSED"))
          (fun body : str => inr body) (fun text => text)
          (fun _ html => inr html) (fun html => html)
          (js "http://a.b/") tt
          (mkWorld (<[js "http://a.b/" := js "<html></html>"]> ∅) [])
  = (Send 200 (Some (js "<html></html>")),
     mkWorld (<[js "http://a.b/" := js "<html></html>"]> ∅) []).
Proof.
  apply (cache_hit (fun (_ : str) (_ : unit) => Failed (Body := str) (js "ECONNREFUSED"))
                   (fun body : str => inr body) (fun text => text)
                   (fun _ html => inr html) (fun html => html)).
  apply lookup_insert_eq.
Defined.



(** ** The order of the boards *)

Section BoardOrder.
Context {Id : Type} `{EqDecision Id}.
Implicit Types (l : list Id) (id : Id).

Lemma relIndex_in_range (i len : Z) :
  (0 <= i <= len)%Z -> relIndex i len = i.
Proof.
  intros Hi. unfold relIndex. destruct (Z.ltb_spec i 0); lia.
Qed.

Lemma first_occurrence id l :
  In id l -> exists l1 l2, l = l1 ++ id :: l2 /\ ~ In id l1.
Proof.
  induction l as [|y l IH]; intros Hin; [destruct Hin|].
  destruct (decide (id = y)) as [->|Hne].
  - exists [], l. split; [reflexivity|]. intros [].
  - destruct Hin as [Hy|Hin]; [congruence|].
    destruct (IH Hin) as (l1 & l2 & -> & Hl1).
    exists (y :: l1), l2. split; [reflexivity|].
    intros [Hy|Hy]; [congruence|auto].
Qed.

Lemma indexOf_absent id l :
  ~ In id l -> GlueBoardController.indexOf id l = (-1)%Z.
Proof.
  induction l as [|y l IH]; intros Hin; [reflexivity|].
  cbn [GlueBoardController.indexOf].
  destruct (decide (id = y)) as [->|Hne]; [destruct Hin; left; reflexivity|].
  rewrite IH by (intros Hl; apply Hin; right; exact Hl). reflexivity.
Qed.

Lemma indexOf_middle id l1 l2 :
  ~ In id l1 ->
  GlueBoardController.indexOf id (l1 ++ id :: l2) = Z.of_nat (length l1).
Proof.
  induction l1 as [|y l1 IH]; intros Hin; cbn [app GlueBoardController.indexOf].
  - rewrite decide_True by reflexivity. reflexivity.
  - rewrite decide_False by (intros ->; apply Hin; left; reflexivity).
    rewrite IH by (intros Hl; apply Hin; right; exact Hl).
    destruct (Z.ltb_spec (Z.of_nat (length l1)) 0); [lia|].
    cbn [length]. lia.
Qed.

(** Deleting one element at a valid index. *)
Lemma splice_delete l1 x l2 :
  GlueBoardController.splice (Z.of_nat (length l1)) 1 [] (l1 ++ x :: l2)
  = l1 ++ l2.
Proof.
  unfold GlueBoardController.splice. rewrite length_app. cbn [length].
  rewrite relIndex_in_range by lia.
  replace (Z.min (Z.max 1 0) _) with 1%Z by lia.
  rewrite Nat2Z.id.
  replace (Z.to_nat (Z.of_nat (length l1) + 1)) with (S (length l1)) by lia.
  rewrite firstn_app, Nat.sub_diag, firstn_all. cbn [firstn app].
  rewrite app_nil_r.
  change (l1 ++ x :: l2) with (l1 ++ [x] ++ l2). rewrite app_assoc.
  rewrite skipn_app.
  replace (length (l1 ++ [x])) with (S (length l1))
    by (rewrite length_app; cbn [length]; lia).
  rewrite Nat.sub_diag, skipn_all2 by (rewrite length_app; cbn [length]; lia).
  reflexivity.
Qed.

(** Deleting at index -1 deletes the last element. *)
Lemma splice_delete_last l :
  GlueBoardController.splice (-1) 1 [] l = removelast l.
Proof.
  induction l as [|x l' _] using rev_ind; [reflexivity|].
  rewrite removelast_last. unfold GlueBoardController.splice, relIndex.
  rewrite length_app. cbn [length Z.ltb Z.compare].
  replace (Z.max (Z.of_nat (length l' + 1) + -1) 0) with (Z.of_nat (length l'))
    by lia.
  replace (Z.min (Z.max 1 0) _) with 1%Z by lia.
  rewrite Nat2Z.id.
  replace (Z.to_nat (Z.of_nat (length l') + 1)) with (length (l' ++ [x]))
    by (rewrite length_app; cbn [length]; lia).
  rewrite firstn_app, Nat.sub_diag, firstn_all, skipn_all. cbn [firstn app].
  rewrite !app_nil_r. reflexivity.
Qed.

(** Inserting one element at a valid index. *)
Lemma splice_insert (p : Z) x l :
  (0 <= p <= Z.of_nat (length l))%Z ->
  GlueBoardController.splice p 0 [x] l
  = firstn (Z.to_nat p) l ++ x :: skipn (Z.to_nat p) l.
Proof.
  intros Hp. unfold GlueBoardController.splice.
  rewrite relIndex_in_range by lia.
  replace (Z.min (Z.max 0 0) _) with 0%Z by lia.
  rewrite Z.add_0_r. reflexivity.
Qed.
Lemma move_middle id l1 l2 (p : Z) :
  ~ In id l1 -> (0 <= p <= Z.of_nat (length (l1 ++ l2)))%Z ->
  GlueBoardController.move (l1 ++ id :: l2) id p
  = firstn (Z.to_nat p) (l1 ++ l2) ++ id :: skipn (Z.to_nat p) (l1 ++ l2).
Proof.
  intros Hin Hp. unfold GlueBoardController.move.
  rewrite (indexOf_middle _ _ _ Hin), splice_delete.
  apply splice_insert. exact Hp.
Qed.

Lemma delete_middle id l1 l2 :
  ~ In id l1 -> GlueBoardController.delete (l1 ++ id :: l2) id = l1 ++ l2.
Proof.
  intros Hin. unfold GlueBoardController.delete.
  rewrite (indexOf_middle _ _ _ Hin). apply splice_delete.
Qed.

Lemma validNewPosition_range (p : Z) l :
  GlueBoardController.validNewPosition p l = true ->
  (0 <= p < Z.of_nat (length l))%Z.
Proof.
  unfold GlueBoardController.validNewPosition.
  rewrite negb_true_iff, orb_false_iff, Z.ltb_ge, Z.geb_leb, Z.leb_gt. tauto.
Qed.

Lemma filter_other_middle id l1 l2 :
  filter (fun y => if decide (y = id) then false else true) (l1 ++ id :: l2)
  = filter (fun y => if decide (y = id) then false else true) (l1 ++ l2).
Proof.
  rewrite !filter_app. cbn [filter]. rewrite decide_True by reflexivity.
  reflexivity.
Qed.

(** X15.  Moving a board of the list to a valid position keeps the boards
    (the result is a permutation of the list), puts the board at the new
    position, and keeps the other boards in their order. *)
Theorem move_valid l id (newPosition : Z)
  (Hown : In id l)
  (Hpos : GlueBoardController.validNewPosition newPosition l = true) :
  Permutation l (GlueBoardController.move l id newPosition)
  /\ nth_error (GlueBoardController.move l id newPosition) (Z.to_nat newPosition)
     = Some id
  /\ filter (fun y => if decide (y = id) then false else true)
            (GlueBoardController.move l id newPosition)
     = filter (fun y => if decide (y = id) then false else true) l.
Proof.
  apply validNewPosition_range in Hpos.
  destruct (first_occurrence _ _ Hown) as (l1 & l2 & -> & Hl1).
  rewrite length_app in Hpos. cbn [length] in Hpos.
  rewrite (move_middle _ _ _ _ Hl1) by (rewrite length_app; lia).
  split; [|split].
  - rewrite <- Permutation_middle.
    rewrite <- (Permutation_middle (firstn _ _)), firstn_skipn. reflexivity.
  - rewrite nth_error_app2 by (rewrite length_firstn, length_app; lia).
    rewrite length_firstn, length_app.
    replace (Z.to_nat newPosition - _)%nat with 0%nat by lia. reflexivity.
  - rewrite !filter_other_middle, firstn_skipn. reflexivity.
Qed.

(** X16.  Moving a board to the position it has leaves the list as it is,
    and moving a board and then moving it back to where it was restores a
    list without duplicates. *)
Theorem move_back l id (newPosition : Z)
  (Hown : In id l) :
  GlueBoardController.move l id (GlueBoardController.indexOf id l) = l
  /\ (NoDup l ->
      GlueBoardController.validNewPosition newPosition l = true ->
      GlueBoardController.move (GlueBoardController.move l id newPosition) id
                               (GlueBoardController.indexOf id l) = l).
Proof.
  destruct (first_occurrence _ _ Hown) as (l1 & l2 & -> & Hl1).
  rewrite (indexOf_middle _ _ _ Hl1).
  assert (Hhere : forall a b, a ++ b = l1 ++ l2 -> ~ In id a ->
    GlueBoardController.move (a ++ id :: b) id (Z.of_nat (length l1))
    = l1 ++ id :: l2).
  { intros a b E Ha. rewrite (move_middle _ _ _ _ Ha) by (rewrite E, length_app; lia).
    rewrite E, Nat2Z.id, firstn_app, Nat.sub_diag, firstn_all.
    cbn [firstn]. rewrite app_nil_r, skipn_app, Nat.sub_diag, skipn_all.
    reflexivity. }
  split; [apply Hhere; [reflexivity|exact Hl1]|].
  intros Hnodup Hpos. apply validNewPosition_range in Hpos.
  rewrite length_app in Hpos. cbn [length] in Hpos.
  rewrite (move_middle _ _ _ _ Hl1) by (rewrite length_app; lia).
  apply Hhere; [apply firstn_skipn|].
  intros Hin. apply NoDup_remove_2 in Hnodup. apply Hnodup.
  rewrite <- (firstn_skipn (Z.to_nat newPosition) (l1 ++ l2)).
  apply in_or_app. left. exact Hin.
Qed.

(** X17.  Deleting a board of the list removes its first occurrence and
    nothing else; in a list without duplicates the board is gone. *)
Theorem delete_present l id
  (Hown : In id l) :
  exists l1 l2,
    l = l1 ++ id :: l2 /\ ~ In id l1
    /\ GlueBoardController.delete l id = l1 ++ l2
    /\ (NoDup l -> ~ In id (GlueBoardController.delete l id)).
Proof.
  destruct (first_occurrence _ _ Hown) as (l1 & l2 & -> & Hl1).
  exists l1, l2. rewrite (delete_middle _ _ _ Hl1).
  repeat split; try assumption.
  intros Hnodup. apply NoDup_remove_2 in Hnodup. exact Hnodup.
Qed.

(** X18.  Deleting a board that is not in the list does not leave the list
    alone: [indexOf] gives -1 and [splice] removes the last board. *)
Theorem delete_absent l id
  (Hforeign : ~ In id l) :
  GlueBoardController.delete l id = removelast l.
Proof.
  unfold GlueBoardController.delete.
  rewrite (indexOf_absent _ _ Hforeign). apply splice_delete_last.
Qed.

(** X19.  Creating a board and deleting it again gives the list back, when
    the identifier is new. *)
Theorem create_delete l id
  (Hfresh : ~ In id l) :
  GlueBoardController.delete (GlueBoardController.create l id) id = l.
Proof.
  unfold GlueBoardController.create.
  rewrite (delete_middle _ _ _ Hfresh). apply app_nil_r.
Qed.
End BoardOrder.

Lemma move_valid_example :
  GlueBoardController.move [1; 2; 3; 4]%nat 2%nat 3 = [1; 3; 4; 2]%nat
  /\ Permutation [1; 2; 3; 4]%nat (GlueBoardController.move [1; 2; 3; 4]%nat 2%nat 3).
Proof.
  split; [reflexivity|].
  apply (proj1 (move_valid [1; 2; 3; 4]%nat 2%nat 3
                  (or_intror (or_introl eq_refl)) eq_refl)).
Defined.

Lemma move_back_example :
  GlueBoardController.move (GlueBoardController.move [1; 2; 3; 4]%nat 2%nat 3) 2%nat
                           (GlueBoardController.indexOf 2%nat [1; 2; 3; 4]%nat)
  = [1; 2; 3; 4]%nat.
Proof.
  apply (proj2 (move_back [1; 2; 3; 4]%nat 2%nat 3 (or_intror (or_introl eq_refl)))).
  - repeat constructor; cbn; intuition discriminate.
  - reflexivity.
Defined.

Lemma delete_present_example :
  ~ In 2%nat (GlueBoardController.delete [1; 2; 3; 4]%nat 2%nat).
Proof.
  destruct (delete_present [1; 2; 3; 4]%nat 2%nat (or_intror (or_introl eq_refl)))
    as (l1 & l2 & _ & _ & _ & H).
  apply H.
  repeat constructor; cbn; intuition discriminate.
Defined.

Lemma delete_absent_example :
  GlueBoardController.delete [1; 2; 3; 4]%nat 9%nat = [1; 2; 3]%nat.
Proof.
  apply (delete_absent [1; 2; 3; 4]%nat 9%nat).
  cbn. intuition discriminate.
Defined.

Lemma create_delete_example :
  GlueBoardController.delete (GlueBoardController.create [1; 2; 3]%nat 4%nat) 4%nat
  = [1; 2; 3]%nat.
Proof.
  apply (create_delete [1; 2; 3]%nat 4%nat).
  cbn. intuition discriminate.
Defined.

(** ** More about single segments and srcset *)

Lemma pathChar_without_slash p : forallb pathChar p = true -> without (ch "/") p.
Proof.
  unfold without. induction p as [|c p IH]; [reflexivity|]. cbn [forallb].
  intros H. apply andb_true_iff in H as [Hc H]. rewrite (IH H), andb_true_r.
  destruct (N.eqb_spec c (ch "/")) as [->|]; [discriminate|reflexivity].
Qed.

Lemma removelast_split_slash rest :
  removelast (split (ch "/") (ch "/" :: rest)) <> [].
Proof.
  change (split (ch "/") (ch "/" :: rest)) with ([] :: split (ch "/") rest).
  rewrite removelast_cons by apply split_not_nil. discriminate.
Qed.

(** X20.  A raw path of class characters without a slash that does not
    begin with [data:] or [javascript:] (a file name, but also a fragment
    [#top], a query, or a link with another scheme such as [mailto:]) is
    resolved as a file in the directory of the target. *)
Theorem single_segment_result (url : URL) (rest p : str)
  (Hpath : pathname url = ch "/" :: rest)
  (Hclass : forallb pathChar p = true)
  (Hdata : startsWith p (js "data:") = false)
  (Hjs : startsWith p (js "javascript:") = false) :
  getAbsolutePath url p
  = js "https://" ++ host url ++
    join (js "/") (removelast (split (ch "/") (pathname url))) ++ js "/" ++ p.
Proof.
  rewrite getAbsolutePath_current.
  - rewrite (split_without _ _ (pathChar_without_slash _ Hclass)).
    rewrite join_snoc; [reflexivity|]. rewrite Hpath. apply removelast_split_slash.
  - rewrite test_currentPathRegex. unfold isCurrent.
    rewrite Hdata, Hjs, (scan_all _ _ Hclass). reflexivity.
Qed.

Lemma single_segment_example :
  getAbsolutePath page (js "mailto:a@b.c") = js "https://example.com/dir/mailto:a@b.c"
  /\ getAbsolutePath page (js "#top") = js "https://example.com/dir/#top".
Proof.
  split.
  - etransitivity.
    + apply (single_segment_result page (js "dir/page.html") (js "mailto:a@b.c"));
        reflexivity.
    + vm_compute. reflexivity.
  - etransitivity.
    + apply (single_segment_result page (js "dir/page.html") (js "#top"));
        reflexivity.
    + vm_compute. reflexivity.
Defined.

Lemma trimLeft_blank cand : forallb isWhiteSpace cand = true -> trimLeft cand = [].
Proof.
  induction cand as [|c cand IH]; [reflexivity|]. cbn [forallb trimLeft].
  intros H. apply andb_true_iff in H as [-> H]. apply IH. exact H.
Qed.

(** X21.  An empty [srcset], and a candidate that is empty or blank (as
    after a trailing comma), are not left empty: they become what
    [getAbsolutePath] makes of the empty path, the URL of the directory of
    the target. *)
Theorem blank_candidate (url : URL) (cand : str)
  (Hblank : forallb isWhiteSpace cand = true) :
  rewriteCandidate url cand = getAbsolutePath url []
  /\ rewriteSrcset url [] = getAbsolutePath url []
  /\ rewriteSrcset url (js "a.png 1x,")
     = getAbsolutePath url (js "a.png") ++ js " 1x," ++ getAbsolutePath url [].
Proof.
  split; [|split].
  - unfold rewriteCandidate. rewrite (trimLeft_blank _ Hblank). reflexivity.
  - reflexivity.
  - change (rewriteSrcset url (js "a.png 1x,"))
      with ((getAbsolutePath url (js "a.png") ++ js " " ++ js "1x")
            ++ js "," ++ getAbsolutePath url []).
    rewrite <- !app_assoc. reflexivity.
Qed.

Lemma blank_candidate_example :
  rewriteCandidate page (js "  ") = js "https://example.com/dir/".
Proof.
  etransitivity.
  - apply (proj1 (blank_candidate page (js "  ") eq_refl)).
  - vm_compute. reflexivity.
Defined.

Lemma without_app c a b : without c (a ++ b) <-> without c a /\ without c b.
Proof. unfold without. rewrite forallb_app, andb_true_iff. reflexivity. Qed.

Lemma without_join c sep l :
  without c sep -> (forall x, In x l -> without c x) -> without c (join sep l).
Proof.
  intros Hsep. induction l as [|x l IH]; intros Hl; [reflexivity|].
  destruct l as [|y l]; [apply Hl; left; reflexivity|].
  rewrite join_cons by discriminate. apply without_app. split.
  - apply Hl. left. reflexivity.
  - apply without_app. split; [exact Hsep|].
    apply IH. intros z Hz. apply Hl. right. exact Hz.
Qed.

Lemma without_split c sep : forall s x,
  without c s -> In x (split sep s) -> without c x.
Proof.
  unfold without. induction s as [|d s IH]; intros x Hs; cbn [split].
  - intros [<-|[]]. reflexivity.
  - cbn [forallb] in Hs. apply andb_true_iff in Hs as [Hd Hs].
    destruct (N.eqb d sep).
    + intros [<-|H]; [reflexivity|auto].
    + destruct (split sep s) as [|seg segs] eqn:E.
      * intros [<-|[]]. cbn. rewrite Hd. reflexivity.
      * intros [<-|H].
        -- cbn. rewrite Hd. cbn. apply IH; [exact Hs|left; reflexivity].
        -- apply IH; [exact Hs|right; exact H].
Qed.

Lemma in_removelast {A : Type} (x : A) (l : list A) :
  In x (removelast l) -> In x l.
Proof.
  induction l as [|y l IH]; [intros []|].
  destruct l as [|z l]; [intros []|].
  change (removelast (y :: z :: l)) with (y :: removelast (z :: l)).
  intros [<-|H]; [left; reflexivity|right; apply IH; exact H].
Qed.

Lemma getAbsolutePath_shape url p :
  getAbsolutePath url p = p
  \/ getAbsolutePath url p
     = js "https://" ++ host url ++
       (if isRoot p then p
        else join (js "/") (removelast (split (ch "/") (pathname url))
                            ++ split (ch "/") p)).
Proof.
  rewrite getAbsolutePath_cases.
  destruct (isRoot p); [right; reflexivity|].
  destruct (isCurrent p) eqn:Ec; [right; reflexivity|].
  rewrite (isParent_false _ Ec). left. reflexivity.
Qed.

(** A code unit that is in neither the host, the path of the target nor
    the raw path, and is none of [https://], is not in the result. *)
Lemma getAbsolutePath_without c url p :
  without c (js "https://") ->
  without c (host url) -> without c (pathname url) -> without c p ->
  without c (getAbsolutePath url p).
Proof.
  intros Hc Hhost Hpath Hp.
  destruct (getAbsolutePath_shape url p) as [->| ->]; [exact Hp|].
  apply without_app. split; [exact Hc|]. apply without_app. split; [exact Hhost|].
  destruct (isRoot p); [exact Hp|].
  apply without_join.
  - change (js "https://") with (js "https:/" ++ js "/") in Hc.
    apply without_app in Hc as [_ Hc]. exact Hc.
  - intros x Hx. apply in_app_or in Hx as [Hx|Hx].
    + apply in_removelast in Hx. apply (without_split c _ _ _ Hpath Hx).
    + apply (without_split c _ _ _ Hp Hx).
Qed.

Lemma split_join sep l :
  l <> [] -> (forall x, In x l -> without sep x) ->
  split sep (join [sep] l) = l.
Proof.
  induction l as [|x l IH]; intros Hne Hl; [congruence|].
  destruct l as [|y l].
  - apply split_without. apply Hl. left. reflexivity.
  - rewrite join_cons by discriminate.
    change (x ++ [sep] ++ join [sep] (y :: l)) with (x ++ sep :: join [sep] (y :: l)).
    rewrite split_app_sep by (apply Hl; left; reflexivity).
    rewrite IH; [reflexivity|discriminate|].
    intros z Hz. apply Hl. right. exact Hz.
Qed.

Lemma rewriteCandidate_without c url cand :
  without c (js "https://") ->
  without c (host url) -> without c (pathname url) -> without c cand ->
  without c (rewriteCandidate url cand).
Proof.
  intros Hc Hhost Hpath Hcand.
  destruct (rewriteCandidate_parts url cand)
    as (ws & path & d & E & _ & _ & _ & _ & ->).
  rewrite E in Hcand. apply without_app in Hcand as [_ Hcand].
  apply without_app in Hcand as [Hp Hd].
  apply without_app. split; [|exact Hd].
  apply getAbsolutePath_without; assumption.
Qed.

Lemma split_rewriteSrcset url srcset :
  without (ch ",") (host url) -> without (ch ",") (pathname url) ->
  split (ch ",") (rewriteSrcset url srcset)
  = map (rewriteCandidate url) (split (ch ",") srcset).
Proof.
  intros Hhost Hpath. unfold rewriteSrcset. apply split_join.
  - intros E. apply map_eq_nil in E. exact (split_not_nil _ _ E).
  - intros x Hx. apply in_map_iff in Hx as (cand & <- & Hcand).
    apply rewriteCandidate_without; try assumption; [reflexivity|].
    apply (split_in_without _ _ _ Hcand).
Qed.

(** X22.  When neither the host nor the path of the target holds a comma,
    the rewritten [srcset] splits on commas into exactly the rewritten
    candidates of the original: no candidate is cut in two and none is
    lost. *)
Theorem srcset_candidates_kept (url : URL) (srcset : str)
  (Hhost : without (ch ",") (host url))
  (Hpath : without (ch ",") (pathname url)) :
  split (ch ",") (rewriteSrcset url srcset)
  = map (rewriteCandidate url) (split (ch ",") srcset).
Proof. apply split_rewriteSrcset; assumption. Qed.

Lemma srcset_candidates_kept_example :
  split (ch ",") (rewriteSrcset page (js "a.png 1x, b.png 2x"))
  = [js "https://example.com/dir/a.png 1x"; js "https://example.com/dir/b.png 2x"].
Proof.
  etransitivity.
  - apply (srcset_candidates_kept page (js "a.png 1x, b.png 2x")); reflexivity.
  - vm_compute. reflexivity.
Defined.

Lemma trimLeft_id s :
  (forall c t, s = c :: t -> isWhiteSpace c = false) -> trimLeft s = s.
Proof.
  destruct s as [|c s]; [reflexivity|]. intros H. cbn [trimLeft].
  rewrite (H c s eq_refl). reflexivity.
Qed.

(** A candidate that is a token and a descriptor, with nothing to trim. *)
Lemma rewriteCandidate_token url t d :
  without (ch " ") t -> (d = [] \/ exists r, d = ch " " :: r) ->
  (forall c x, t ++ d = c :: x -> isWhiteSpace c = false) ->
  rewriteCandidate url (t ++ d) = getAbsolutePath url t ++ d.
Proof.
  intros Ht Hd Hstart. unfold rewriteCandidate. rewrite (trimLeft_id _ Hstart).
  pose proof (join_split (ch " ") (t ++ d)) as Ejoin.
  destruct (split_first (ch " ") t d Ht Hd) as (rest & E). rewrite E in Ejoin |- *.
  cbn [hd]. change (<[0:=getAbsolutePath url t]> (t :: rest))
    with (getAbsolutePath url t :: rest).
  destruct rest as [|y rest].
  - cbn [join] in Ejoin |- *. rewrite <- (app_nil_r t) in Ejoin at 1.
    apply app_inv_head in Ejoin. rewrite <- Ejoin. symmetry. apply app_nil_r.
  - rewrite join_cons in Ejoin |- * by discriminate.
    apply app_inv_head in Ejoin. rewrite <- Ejoin. reflexivity.
Qed.

(** X23.  When the host and the path of the target hold neither a comma
    nor a space, rewriting a rewritten [srcset] changes nothing. *)
Theorem srcset_idempotent (url : URL) (srcset : str)
  (Hhost : without (ch ",") (host url)) (Hpath : without (ch ",") (pathname url))
  (Hhost' : without (ch " ") (host url)) (Hpath' : without (ch " ") (pathname url)) :
  rewriteSrcset url (rewriteSrcset url srcset) = rewriteSrcset url srcset.
Proof.
  unfold rewriteSrcset at 1. rewrite split_rewriteSrcset by assumption.
  rewrite map_map. unfold rewriteSrcset. f_equal. apply map_ext. intros cand.
  destruct (rewriteCandidate_parts url cand)
    as (ws & path & d & _ & _ & Hstart & Hp & Hd & ->).
  assert (Hfix : getAbsolutePath url (getAbsolutePath url path)
                 = getAbsolutePath url path).
  { destruct (getAbsolutePath_shape url path) as [E|E]; rewrite E.
    - exact E.
    - apply https_unchanged. }
  rewrite rewriteCandidate_token, Hfix; [reflexivity| |exact Hd|].
  - apply getAbsolutePath_without; try assumption. reflexivity.
  - destruct (getAbsolutePath_shape url path) as [E|E]; rewrite E.
    + exact Hstart.
    + intros c x Hc. injection Hc as <- _. reflexivity.
Qed.

Lemma srcset_idempotent_example :
  rewriteSrcset page (rewriteSrcset page (js "a.png 1x, b.png 2x"))
  = rewriteSrcset page (js "a.png 1x, b.png 2x").
Proof.
  apply (srcset_idempotent page (js "a.png 1x, b.png 2x")); reflexivity.
Defined.

(** X24.  [stylePathReplacer] throws exactly on a text in which the style
    pattern finds no match: without a match the read of the capture fails,
    and with a match somewhere in the text it returns a value. *)
Theorem stylePathReplacer_throws (url : URL) (stylePath : str) :
  (exec stylePathRegex stylePath = None -> stylePathReplacer url stylePath = None)
  /\ (forall m, exec stylePathRegex stylePath = Some m ->
        exists out, stylePathReplacer url stylePath = Some out).
Proof.
  unfold stylePathReplacer. split; [intros ->; reflexivity|].
  intros m E. rewrite E.
  destruct (exec_Some _ _ _ E) as (s0 & l & _ & Hrun & _).
  destruct (run_stylePathRegex_inv _ _ _ Hrun)
    as (open & body & close & Ho & Hc & Hne & Hb & Es0).
  cbn [fst] in Es0. rewrite Es0 in Hrun.
  rewrite (run_stylePathRegex open body close (after m) Ho Hc Hne Hb) in Hrun.
  injection Hrun as Hg _. rewrite <- Hg.
  destruct (startsWith stylePath (js "url(" ++ [dquote])); [eauto|].
  destruct (startsWith stylePath (js "url(" ++ [squote])); eauto.
Qed.

Lemma stylePathReplacer_throws_example :
  stylePathReplacer page (js "color: red") = None
  /\ exists out, stylePathReplacer page (js "x url(a.png) y") = Some out.
Proof.
  split.
  - apply (proj1 (stylePathReplacer_throws page (js "color: red"))).
    vm_compute. reflexivity.
  - apply (proj2 (stylePathReplacer_throws page (js "x url(a.png) y"))
                 (mkMatched (js "x ") (js "url(a.png)") (Some (js "a.png")) (js " y"))).
    vm_compute. reflexivity.
Defined.
